(** * Shortest paths of plot.py: the function [dijkstra]

    A shallow embedding of [dijkstra] (plot.py, lines 5-41) and of the
    example graph [grafo_exemplo] (lines 87-97), with the properties the
    specification states about them.

    Data, as the program has it:
    - a vertex is a Python [str];
    - an edge weight is a Python number.  The development is at [int]
      weights, unbounded integers [Z]; a distance is then an [int] or
      [float('infinity')]: the type [dist].  The same lines at [float]
      weights, binary64 numbers, are [dijkstra_float]: there infinity is
      also a weight and a sum, and the properties that depend on it are
      stated for the integers;
    - the graph is a [dict] of [dict]s.  The loop of line 33 walks the
      items of the inner dict in insertion order, so a dict read by the
      program is a list of (key, value) pairs in that order, looked up by
      key from the front;
    - [distancias] and [caminhos] are dicts which the program only reads
      and writes by key: finite maps [gmap string _];
    - [fila_prioridade] is the list managed by [heapq].  [heapq] is the
      Python standard library, not code of this repository: it is modelled
      by its contract, the entries kept in increasing order of the tuple
      comparison, so that [heappop] hands out the least entry. *)

From Stdlib Require Import ZArith List Lia Bool Sorted.
From Stdlib Require Import Relation_Operators Wellfounded.
From Stdlib Require Import Strings.String Strings.Ascii.
From Stdlib Require Import Floats.PrimFloat.
From stdpp Require Import base option list gmap strings fin_maps.

Local Open Scope string_scope.
Local Open Scope list_scope.
Local Open Scope Z_scope.

(** ** Values *)

Abbreviation vertex := string.

(** [float('infinity')] against the integers. *)
Inductive dist : Type :=
| Fin (d : Z)
| Inf.

(** [a < b] on distances, as Python compares an [int] with
    [float('infinity')]. *)
Definition dist_ltb (a b : dist) : bool :=
  match a, b with
  | Fin x, Fin y => x <? y
  | Fin _, Inf => true
  | Inf, _ => false
  end.

(** [a > b]. *)
Definition dist_gtb (a b : dist) : bool := dist_ltb b a.

Definition dist_le (a b : dist) : Prop :=
  match a, b with
  | Fin x, Fin y => x <= y
  | _, Inf => True
  | Inf, Fin _ => False
  end.

(** ** Dicts read in insertion order *)

Definition dict (V : Type) := list (string * V).

(** [k in d], [d[k]]. *)
Fixpoint dict_get {V} (d : dict V) (k : string) : option V :=
  match d with
  | [] => None
  | (k', v) :: r => if String.eqb k' k then Some v else dict_get r k
  end.

(** The keys, as [for k in d] yields them. *)
Definition dict_keys {V} (d : dict V) : list string := map fst d.

(** [d[k] = v]: the value is replaced in place, a new key goes last. *)
Fixpoint dict_set {V} (d : dict V) (k : string) (v : V) : dict V :=
  match d with
  | [] => [(k, v)]
  | (k', v') :: r =>
      if String.eqb k' k then (k', v) :: r else (k', v') :: dict_set r k v
  end.

(** [d.pop(k, None)]. *)
Fixpoint dict_del {V} (d : dict V) (k : string) : dict V :=
  match d with
  | [] => []
  | (k', v') :: r =>
      if String.eqb k' k then dict_del r k else (k', v') :: dict_del r k
  end.

Definition adjacency := dict Z.
Definition graph := dict adjacency.

(** ** Outcomes of a call *)

Inductive exn : Type :=
| KeyError (k : string).

Inductive outcome (A : Type) : Type :=
| Returns (a : A)
| Raises (e : exn)
| OutOfFuel.
Arguments Returns {A} a.
Arguments Raises {A} e.
Arguments OutOfFuel {A}.

(** ** The priority queue *)

Definition entry := (Z * vertex)%type.

(** Tuple comparison [a <= b]: first components, then the strings. *)
Definition entry_leb (a b : entry) : bool :=
  (fst a <? fst b) || ((fst a =? fst b) && String.leb (snd a) (snd b)).

(** [heapq.heappush]. *)
Fixpoint heappush (h : list entry) (x : entry) : list entry :=
  match h with
  | [] => [x]
  | y :: t => if entry_leb x y then x :: y :: t else y :: heappush t x
  end.

(** [heapq.heappop]; the program calls it on a non-empty queue only. *)
Definition heappop (h : list entry) : option (entry * list entry) :=
  match h with
  | [] => None
  | x :: t => Some (x, t)
  end.

(** The order [heapq] keeps: [heappop] hands out a least entry. *)
Definition queue_sorted (h : list entry) : Prop :=
  StronglySorted (fun a b => entry_leb a b = true) h.

(** ** The solver state *)

Record state : Type := State {
  distancias : gmap string dist;
  caminhos : gmap string (list vertex);
  fila_prioridade : list entry
}.

(** Lines 19-25. *)
Definition init (grafo : graph) (inicio : vertex) : state :=
  {| distancias :=
       <[inicio := Fin 0]>
         (list_to_map (map (fun v => (v, Inf)) (dict_keys grafo)));
     caminhos :=
       <[inicio := [inicio]]>
         (list_to_map (map (fun v => (v, @nil vertex)) (dict_keys grafo)));
     fila_prioridade := [(0, inicio)] |}.

(** Lines 34-39: one neighbour of [vertice_atual]. *)
Definition relax (distancia_atual : Z) (vertice_atual : vertex)
    (st : state) (item : vertex * Z) : outcome state :=
  let '(vizinho, peso) := item in
  let distancia := distancia_atual + peso in
  match distancias st !! vizinho with
  | None => Raises (KeyError vizinho)
  | Some dv =>
      if dist_ltb (Fin distancia) dv then
        match caminhos st !! vertice_atual with
        | None => Raises (KeyError vertice_atual)
        | Some p =>
            Returns
              {| distancias := <[vizinho := Fin distancia]> (distancias st);
                 caminhos := <[vizinho := p ++ [vizinho]]> (caminhos st);
                 fila_prioridade :=
                   heappush (fila_prioridade st) (distancia, vizinho) |}
        end
      else Returns st
  end.

(** Line 33: the [for] loop over the items. *)
Fixpoint for_items (distancia_atual : Z) (vertice_atual : vertex)
    (st : state) (items : adjacency) : outcome state :=
  match items with
  | [] => Returns st
  | it :: rest =>
      match relax distancia_atual vertice_atual st it with
      | Returns st' => for_items distancia_atual vertice_atual st' rest
      | Raises e => Raises e
      | OutOfFuel => OutOfFuel
      end
  end.

(** Lines 28-39: the body of the [while] loop, entered with the popped
    entry and the rest of the queue. *)
Definition body (grafo : graph) (st : state) (x : entry) (rest : list entry)
  : outcome state :=
  let '(distancia_atual, vertice_atual) := x in
  let st1 := {| distancias := distancias st;
                caminhos := caminhos st;
                fila_prioridade := rest |} in
  match distancias st !! vertice_atual with
  | None => Raises (KeyError vertice_atual)
  | Some dv =>
      if dist_gtb (Fin distancia_atual) dv then Returns st1
      else
        match dict_get grafo vertice_atual with
        | None => Raises (KeyError vertice_atual)
        | Some items => for_items distancia_atual vertice_atual st1 items
        end
  end.

(** Lines 27-41: the [while] loop, one unit of fuel per iteration, and the
    [return]. *)
Fixpoint loop (fuel : nat) (grafo : graph) (st : state)
  : outcome (gmap string dist * gmap string (list vertex)) :=
  match heappop (fila_prioridade st) with
  | None => Returns (distancias st, caminhos st)
  | Some (x, rest) =>
      match fuel with
      | O => OutOfFuel
      | S fuel' =>
          match body grafo st x rest with
          | Returns st' => loop fuel' grafo st'
          | Raises e => Raises e
          | OutOfFuel => OutOfFuel
          end
      end
  end.

Definition dijkstra (fuel : nat) (grafo : graph) (inicio : vertex)
  : outcome (gmap string dist * gmap string (list vertex)) :=
  loop fuel grafo (init grafo inicio).

(** Lines 87-97. *)
Definition grafo_exemplo : graph :=
  [ ("A", [("B", 6); ("D", 1); ("H", 2)]);
    ("B", [("A", 6); ("C", 5); ("D", 2); ("G", 3)]);
    ("C", [("B", 5); ("D", 1); ("E", 3); ("I", 1)]);
    ("D", [("A", 1); ("B", 2); ("C", 1); ("E", 4); ("F", 2)]);
    ("E", [("C", 3); ("D", 4); ("F", 1)]);
    ("F", [("D", 2); ("E", 1); ("G", 4)]);
    ("G", [("B", 3); ("F", 4); ("H", 3)]);
    ("H", [("A", 2); ("G", 3); ("I", 2)]);
    ("I", [("C", 1); ("H", 2)]) ].

(** ** Graphs, paths and shortest distances *)

(** [(x, w)] is an item of [grafo[u]]: the edge [u -> x] of weight [w]. *)
Definition edge (g : graph) (u x : vertex) (w : Z) : Prop :=
  exists a, dict_get g u = Some a /\ (x, w) ∈ a.

(** [grafo[u][x]], when both keys are there. *)
Definition peso (g : graph) (u x : vertex) : option Z :=
  match dict_get g u with
  | Some a => dict_get a x
  | None => None
  end.

(** All weights are non-negative: the entries, then the edges. *)
Definition nonneg (g : graph) : Prop :=
  Forall (fun ua => Forall (fun xw => 0 <= snd xw) (snd ua)) g.

Definition nonneg_edges (g : graph) : Prop :=
  forall u x w, edge g u x w -> 0 <= w.

(** The adjacency mappings mention keys of the graph only: the entries,
    then the edges. *)
Definition closed (g : graph) : Prop :=
  Forall (fun ua => Forall (fun xw => fst xw ∈ dict_keys g) (snd ua)) g.

Definition closed_edges (g : graph) : Prop :=
  forall u x w, edge g u x w -> x ∈ dict_keys g.

(** No key is repeated in an inner dict, as in every Python dict. *)
Definition adjacency_ok (g : graph) : Prop :=
  Forall (fun ua => NoDup (dict_keys (snd ua))) g.

(** [walk g s v l d]: [l] lists the vertices of a directed path of [g]
    from [s] to [v], both ends included, of cumulative weight [d]. *)
Inductive walk (g : graph) (s : vertex) : vertex -> list vertex -> Z -> Prop :=
| walk_start : walk g s s [s] 0
| walk_step u x w l d :
    walk g s u l d -> edge g u x w -> walk g s x (l ++ [x]) (d + w).

(** Sum of the edge weights over the consecutive pairs of [l]; [None] when
    some pair is not an edge. *)
Fixpoint path_weight (g : graph) (l : list vertex) : option Z :=
  match l with
  | [] => Some 0
  | u :: r =>
      match r with
      | [] => Some 0
      | x :: _ =>
          match peso g u x, path_weight g r with
          | Some w, Some d => Some (w + d)
          | _, _ => None
          end
      end
  end.

(** Every consecutive pair of [l] is an edge of [g]. *)
Fixpoint chain (g : graph) (l : list vertex) : Prop :=
  match l with
  | [] => True
  | u :: r =>
      match r with
      | [] => True
      | x :: _ => (exists w, edge g u x w) /\ chain g r
      end
  end.

(** [delta] is the least weight of a path from [s] to [v], or infinite
    when there is none.  The least weight is reached on a path that passes
    no vertex twice, and it is least among all paths, with or without
    repeated vertices. *)
Definition shortest (g : graph) (s v : vertex) (delta : dist) : Prop :=
  match delta with
  | Fin d =>
      (exists l, walk g s v l d /\ NoDup l) /\
      (forall l d', walk g s v l d' -> d <= d')
  | Inf => forall l d', ~ walk g s v l d'
  end.

(** The call returns [T]: some number of loop iterations is enough. *)
Definition solve_returns (g : graph) (s : vertex)
    (T : gmap string dist * gmap string (list vertex)) : Prop :=
  exists fuel, dijkstra fuel g s = Returns T.

(** The graph without the edge [u -> x]. *)
Definition remove_edge (g : graph) (u x : vertex) : graph :=
  match dict_get g u with
  | Some a => dict_set g u (dict_del a x)
  | None => g
  end.

(** The graph with the edge [u -> x] of weight [w]. *)
Definition add_edge (g : graph) (u x : vertex) (w : Z) : graph :=
  match dict_get g u with
  | Some a => dict_set g u (dict_set a x w)
  | None => dict_set g u [(x, w)]
  end.

(** ** Example data *)

(** The distances the program prints for [grafo_exemplo] from ["A"], and
    the paths. *)
Definition distancias_exemplo : gmap string dist :=
  list_to_map
    [ ("A", Fin 0); ("B", Fin 3); ("C", Fin 2); ("D", Fin 1); ("E", Fin 4);
      ("F", Fin 3); ("G", Fin 5); ("H", Fin 2); ("I", Fin 3) ].

Definition caminhos_exemplo : gmap string (list vertex) :=
  list_to_map
    [ ("A", ["A"]); ("B", ["A"; "D"; "B"]); ("C", ["A"; "D"; "C"]);
      ("D", ["A"; "D"]); ("E", ["A"; "D"; "F"; "E"]); ("F", ["A"; "D"; "F"]);
      ("G", ["A"; "H"; "G"]); ("H", ["A"; "H"]); ("I", ["A"; "D"; "C"; "I"]) ].

(** An isolated vertex, and graphs with a missing key. *)
Definition grafo_isolado : graph :=
  [ ("A", [("B", 1)]); ("B", []); ("Z", []) ].

Definition grafo_pendente : graph := [ ("A", [("B", 1)]) ].

Definition distancias_isolado : gmap string dist :=
  list_to_map [ ("A", Fin 0); ("B", Fin 1); ("Z", Inf) ].

Definition caminhos_isolado : gmap string (list vertex) :=
  list_to_map [ ("A", ["A"]); ("B", ["A"; "B"]); ("Z", []) ].

(** The pair of tables of a call that returned. *)
Definition returned
    (r : outcome (gmap string dist * gmap string (list vertex)))
  : gmap string dist * gmap string (list vertex) :=
  match r with
  | Returns T => T
  | _ => (∅, ∅)
  end.

(** The distances of the specification's scenario: as above, except
    [E] at 5 and [G] at 4. *)
Definition distancias_cenario : gmap string dist :=
  list_to_map
    [ ("A", Fin 0); ("B", Fin 3); ("C", Fin 2); ("D", Fin 1); ("E", Fin 5);
      ("F", Fin 3); ("G", Fin 4); ("H", Fin 2); ("I", Fin 3) ].

(** ** The loop invariant, the keys and the measure *)

(** Every edge out of [v] has been taken into account at distance [d]. *)
Definition relaxed (g : graph) (D : gmap string dist) (v : vertex) (d : Z)
  : Prop :=
  forall x w, edge g v x w -> exists dx, D !! x = Some (Fin dx) /\ dx <= d + w.

(** Distances only go down. *)
Definition table_le (D D' : gmap string dist) : Prop :=
  forall v dv, D !! v = Some (Fin dv) ->
    exists dv', D' !! v = Some (Fin dv') /\ dv' <= dv.

(** The invariant of the [while] loop; [cur] is the entry whose edges the
    [for] loop is walking, if any. *)
Record inv (g : graph) (s : vertex) (cur : option entry) (st : state)
  : Prop := Inv {
  inv_keys : forall v, v ∈ dict_keys g -> is_Some (distancias st !! v);
  inv_src : distancias st !! s = Some (Fin 0) /\ caminhos st !! s = Some [s];
  inv_path : forall v d, distancias st !! v = Some (Fin d) ->
    exists l, caminhos st !! v = Some l /\ walk g s v l d;
  inv_inf : forall v, distancias st !! v = Some Inf ->
    caminhos st !! v = Some [];
  inv_fila : forall d v, (d, v) ∈ fila_prioridade st ->
    exists dv, distancias st !! v = Some (Fin dv) /\ dv <= d;
  inv_open : forall v d, distancias st !! v = Some (Fin d) ->
    (d, v) ∈ fila_prioridade st \/ relaxed g (distancias st) v d
    \/ cur = Some (d, v);
  inv_via : forall v d l y, distancias st !! v = Some (Fin d) ->
    caminhos st !! v = Some l -> y ∈ l ->
    exists dy, distancias st !! y = Some (Fin dy) /\ dy <= d;
  inv_simple : forall v d l, distancias st !! v = Some (Fin d) ->
    caminhos st !! v = Some l -> NoDup l
}.

(** Every key the loop looks up is there. *)
Record dom_inv (g : graph) (st : state) : Prop := DomInv {
  dom_dist : forall v, v ∈ dict_keys g -> is_Some (distancias st !! v);
  dom_path : forall v, v ∈ dict_keys g -> is_Some (caminhos st !! v);
  dom_fila : forall d v, (d, v) ∈ fila_prioridade st -> v ∈ dict_keys g
}.

(** The measure of the loop: how many keys are still at infinity, the sum
    of the finite distances, and the length of the queue, in this order. *)
Definition weigh_inf (D : gmap string dist) (v : vertex) : nat :=
  match D !! v with Some Inf => 1 | _ => 0 end.

Definition weigh_fin (D : gmap string dist) (v : vertex) : nat :=
  match D !! v with Some (Fin d) => Z.to_nat d | _ => 0 end.

Definition m_inf (g : graph) (D : gmap string dist) : nat :=
  sum_list_with (weigh_inf D) (dict_keys g).

Definition m_fin (g : graph) (D : gmap string dist) : nat :=
  sum_list_with (weigh_fin D) (dict_keys g).

(** The tables improved. *)
Definition tables_lt (g : graph) (D' D : gmap string dist) : Prop :=
  (m_inf g D' < m_inf g D)%nat \/
  (m_inf g D' = m_inf g D /\ (m_fin g D' < m_fin g D)%nat).

Definition mu_lt (g : graph) (st' st : state) : Prop :=
  tables_lt g (distancias st') (distancias st) \/
  (m_inf g (distancias st') = m_inf g (distancias st) /\
   m_fin g (distancias st') = m_fin g (distancias st) /\
   (length (fila_prioridade st') < length (fila_prioridade st))%nat).

Definition mu (g : graph) (st : state) : nat * nat * nat :=
  (m_inf g (distancias st), m_fin g (distancias st),
   length (fila_prioridade st)).

(** ** The drawing: what [visualizar_grafo] hands to networkx

    [networkx] and [matplotlib] are outside this repository; what the
    function computes itself is the sequence of [G.add_edge] calls (lines
    55-57) and the edge lists of the red [draw_networkx_edges] calls (lines
    72-78). *)

(** Lines 55-57: the arguments of the [G.add_edge] calls, in order. *)
Definition G_arestas (grafo : graph) : list (vertex * vertex * Z) :=
  flat_map
    (fun '(no, vizinhos) =>
       map (fun '(vizinho, peso) => (no, vizinho, peso)) vizinhos)
    grafo.

(** The nodes of [G]: [add_edge] is the only call that puts anything in
    [G], and it puts both ends of the edge there. *)
Definition G_nos (grafo : graph) : list vertex :=
  flat_map (fun '(no, vizinho, _) => [no; vizinho]) (G_arestas grafo).

(** Line 76: [list(zip(caminho[:-1], caminho[1:]))]. *)
Definition arestas_caminho (caminho : list vertex) : list (vertex * vertex) :=
  zip (take (length caminho - 1) caminho) (drop 1 caminho).

(** Lines 72-78: the [edgelist] of each red drawing call, in order.  The
    arguments [caminhos] and [inicio] default to [None]; an empty dict and
    an empty string are false as well. *)
Definition destaques (caminhos : option (dict (list vertex)))
    (inicio : option vertex) : list (list (vertex * vertex)) :=
  match caminhos, inicio with
  | Some cs, Some i =>
      if bool_decide (cs = []) || String.eqb i "" then []
      else
        omap
          (fun '(destino, caminho) =>
             if negb (String.eqb destino i) && negb (bool_decide (caminho = []))
             then Some (arestas_caminho caminho)
             else None)
          cs
  | _, _ => []
  end.

(** ** The expanded vertices and the bound on the iterations *)

(** The number of items of all the adjacency mappings. *)
Definition edge_count (g : graph) : nat :=
  sum_list_with (fun ua => length (snd ua)) g.

(** The items of the keys outside [X]. *)
Definition pending (g : graph) (X : gset string) : nat :=
  sum_list_with
    (fun ua => if decide (fst ua ∈ X) then 0%nat else length (snd ua)) g.

(** [X] is the set of the vertices whose edges the loop has walked, [L] the
    distance of the last entry it took from the queue: the entries left are
    not below [L], none is repeated, and those of a vertex of [X] are all
    above its distance, so the test of line 30 discards them. *)
Record dinv (L : Z) (X : gset string) (st : state) : Prop := DInv {
  d_low : forall d v, (d, v) ∈ fila_prioridade st -> L <= d;
  d_nodup : NoDup (fila_prioridade st);
  d_done : forall u, u ∈ X ->
    exists du, distancias st !! u = Some (Fin du) /\ du <= L /\
      forall d', (d', u) ∈ fila_prioridade st -> du < d'
}.

(** ** The key sets of the tables, and graphs up to dict order *)

(** Both tables have the keys of the graph, and the source. *)
Definition keys_exact (g : graph) (s : vertex) (st : state) : Prop :=
  forall v,
    (is_Some (distancias st !! v) <-> v ∈ dict_keys g \/ v = s) /\
    (is_Some (caminhos st !! v) <-> v ∈ dict_keys g \/ v = s).

(** Every item of every entry of [g] is an item of [g'[key]]. *)
Definition graph_subb (g g' : graph) : bool :=
  forallb
    (fun ua =>
       match dict_get g' (fst ua) with
       | Some a' => forallb (fun xw => bool_decide (xw ∈ a')) (snd ua)
       | None => false
       end)
    g.

(** [grafo_exemplo] written in the opposite order, keys and items. *)
Definition grafo_exemplo_rev : graph :=
  rev (map (fun ua => (fst ua, rev (snd ua))) grafo_exemplo).

(** ** Weights of any sign *)

(** What the loop keeps whatever the sign of the weights; [cur] as in
    [inv]. *)
Record winv (g : graph) (s : vertex) (cur : option entry) (st : state)
  : Prop := WInv {
  w_src : exists d0, distancias st !! s = Some (Fin d0) /\ d0 <= 0;
  w_walk : forall v d, distancias st !! v = Some (Fin d) ->
    exists l, walk g s v l d;
  w_fila : forall d v, (d, v) ∈ fila_prioridade st ->
    exists dv, distancias st !! v = Some (Fin dv) /\ dv <= d;
  w_open : forall v d, distancias st !! v = Some (Fin d) ->
    (d, v) ∈ fila_prioridade st \/ relaxed g (distancias st) v d
    \/ cur = Some (d, v)
}.

(** [delta] is the least weight of a path from [s] to [v], vertices
    repeated or not, or infinite when there is no path. *)
Definition least_weight (g : graph) (s v : vertex) (delta : dist) : Prop :=
  match delta with
  | Fin d =>
      (exists l, walk g s v l d) /\ (forall l d', walk g s v l d' -> d <= d')
  | Inf => forall l d', ~ walk g s v l d'
  end.

(** A loop of weight -1 on the only vertex. *)
Definition grafo_ciclo : graph := [ ("A", [("A", -1)]) ].

(** A negative edge on no cycle. *)
Definition grafo_negativo : graph :=
  [ ("A", [("B", 5); ("C", 2)]); ("B", [("C", -4)]); ("C", []) ].

(** ** What [heapq] leaves open

    [heapq] promises that [heappop] returns the smallest entry; how it
    arranges the list between two calls is its own business.  In a run of
    the loop below, [heappop] may hand out any least entry, whatever the
    arrangement of the others, and the entries may be arranged anew after
    each iteration (the [for] loop only pushes, it never reads the queue,
    so this covers any arrangement made by a push). *)

(** [heappop] on [h] may return [x] and leave [rest]. *)
Definition pops (h : list entry) (x : entry) (rest : list entry) : Prop :=
  h ≡ₚ x :: rest /\ Forall (fun y => entry_leb x y = true) rest.

(** The same tables, the same entries in the queue. *)
Definition same_state (st st' : state) : Prop :=
  distancias st = distancias st' /\ caminhos st = caminhos st' /\
  fila_prioridade st ≡ₚ fila_prioridade st'.

(** [runs grafo st r]: from [st], lines 27-41 can end with [r]. *)
Inductive runs (grafo : graph)
  : state -> outcome (gmap string dist * gmap string (list vertex)) -> Prop :=
| runs_return st :
    fila_prioridade st = [] ->
    runs grafo st (Returns (distancias st, caminhos st))
| runs_raise st x rest e :
    pops (fila_prioridade st) x rest ->
    body grafo st x rest = Raises e ->
    runs grafo st (Raises e)
| runs_iter st x rest st1 st2 r :
    pops (fila_prioridade st) x rest ->
    body grafo st x rest = Returns st1 ->
    same_state st1 st2 ->
    runs grafo st2 r ->
    runs grafo st r.

(** A source with two neighbours, the farther one listed first. *)
Definition grafo_dois : graph :=
  [ ("A", [("B", 2); ("C", 1)]); ("B", []); ("C", []) ].

(** ** The same code at float weights

    Python's arithmetic is the same text for [int] and [float].  With float
    weights every number of the run is a binary64 float, the [0] of lines
    20 and 25 included: it adds and compares as [0.0] does. *)

Definition adjacency_float := dict float.
Definition graph_float := dict adjacency_float.
Definition entry_float := (float * string)%type.

(** Tuple comparison [a <= b]: the first components when [==] tells them
    apart, the strings otherwise. *)
Definition entry_float_leb (a b : entry_float) : bool :=
  if PrimFloat.eqb (fst a) (fst b) then String.leb (snd a) (snd b)
  else PrimFloat.ltb (fst a) (fst b).

Fixpoint heappush_float (h : list entry_float) (x : entry_float)
  : list entry_float :=
  match h with
  | [] => [x]
  | y :: t =>
      if entry_float_leb x y then x :: y :: t else y :: heappush_float t x
  end.

Definition heappop_float (h : list entry_float)
  : option (entry_float * list entry_float) :=
  match h with
  | [] => None
  | x :: t => Some (x, t)
  end.

Record state_float : Type := StateFloat {
  distancias_float : gmap string float;
  caminhos_float : gmap string (list string);
  fila_float : list entry_float
}.

(** Lines 19-25. *)
Definition init_float (grafo : graph_float) (inicio : string) : state_float :=
  {| distancias_float :=
       <[inicio := 0%float]>
         (list_to_map (map (fun v => (v, infinity)) (dict_keys grafo)));
     caminhos_float :=
       <[inicio := [inicio]]>
         (list_to_map (map (fun v => (v, @nil string)) (dict_keys grafo)));
     fila_float := [(0%float, inicio)] |}.

(** Lines 34-39. *)
Definition relax_float (distancia_atual : float) (vertice_atual : string)
    (st : state_float) (item : string * float) : outcome state_float :=
  let '(vizinho, peso) := item in
  let distancia := PrimFloat.add distancia_atual peso in
  match distancias_float st !! vizinho with
  | None => Raises (KeyError vizinho)
  | Some dv =>
      if PrimFloat.ltb distancia dv then
        match caminhos_float st !! vertice_atual with
        | None => Raises (KeyError vertice_atual)
        | Some p =>
            Returns
              {| distancias_float :=
                   <[vizinho := distancia]> (distancias_float st);
                 caminhos_float :=
                   <[vizinho := p ++ [vizinho]]> (caminhos_float st);
                 fila_float :=
                   heappush_float (fila_float st) (distancia, vizinho) |}
        end
      else Returns st
  end.

(** Line 33. *)
Fixpoint for_items_float (distancia_atual : float) (vertice_atual : string)
    (st : state_float) (items : adjacency_float) : outcome state_float :=
  match items with
  | [] => Returns st
  | it :: rest =>
      match relax_float distancia_atual vertice_atual st it with
      | Returns st' => for_items_float distancia_atual vertice_atual st' rest
      | Raises e => Raises e
      | OutOfFuel => OutOfFuel
      end
  end.

(** Lines 28-39. *)
Definition body_float (grafo : graph_float) (st : state_float)
    (x : entry_float) (rest : list entry_float) : outcome state_float :=
  let '(distancia_atual, vertice_atual) := x in
  let st1 := {| distancias_float := distancias_float st;
                caminhos_float := caminhos_float st;
                fila_float := rest |} in
  match distancias_float st !! vertice_atual with
  | None => Raises (KeyError vertice_atual)
  | Some dv =>
      if PrimFloat.ltb dv distancia_atual then Returns st1
      else
        match dict_get grafo vertice_atual with
        | None => Raises (KeyError vertice_atual)
        | Some items =>
            for_items_float distancia_atual vertice_atual st1 items
        end
  end.

(** Lines 27-41. *)
Fixpoint loop_float (fuel : nat) (grafo : graph_float) (st : state_float)
  : outcome (gmap string float * gmap string (list string)) :=
  match heappop_float (fila_float st) with
  | None => Returns (distancias_float st, caminhos_float st)
  | Some (x, rest) =>
      match fuel with
      | O => OutOfFuel
      | S fuel' =>
          match body_float grafo st x rest with
          | Returns st' => loop_float fuel' grafo st'
          | Raises e => Raises e
          | OutOfFuel => OutOfFuel
          end
      end
  end.

Definition dijkstra_float (fuel : nat) (grafo : graph_float) (inicio : string)
  : outcome (gmap string float * gmap string (list string)) :=
  loop_float fuel grafo (init_float grafo inicio).

(** [1e308], the binary64 float nearest to it. *)
Definition f1e308 : float := 0x1.1ccf385ebc8ap+1023%float.

(** An edge of infinite weight; two edges whose weights add up beyond the
    largest float; a loop of weight [-1e308]. *)
Definition grafo_peso_inf : graph_float :=
  [ ("A", [("B", infinity)]); ("B", []) ].

Definition grafo_peso_grande : graph_float :=
  [ ("A", [("B", f1e308)]); ("B", [("C", f1e308)]); ("C", []) ].

Definition grafo_ciclo_float : graph_float :=
  [ ("A", [("A", PrimFloat.opp f1e308)]) ].

(** [(x, w)] is an item of [grafo[u]], at float weights. *)
Definition edge_float (g : graph_float) (u x : string) (w : float) : Prop :=
  exists a, dict_get g u = Some a /\ (x, w) ∈ a.

(** * Lemmas *)

(** ** Dicts and the queue *)

Lemma dict_get_elem {V} (d : dict V) k v :
  dict_get d k = Some v -> (k, v) ∈ d.
Proof.
  induction d as [|[k' v'] r IH]; simpl; [discriminate|].
  destruct (String.eqb_spec k' k) as [->|Hne].
  - intros [= ->]. left.
  - intros H. right. auto.
Qed.

Lemma dict_get_keys {V} (d : dict V) k :
  k ∈ dict_keys d <-> is_Some (dict_get d k).
Proof.
  induction d as [|[k' v'] r IH]; simpl.
  - split; [intros H; inversion H | intros [? ?]; discriminate].
  - destruct (String.eqb_spec k' k) as [->|Hne].
    + split; [eauto | left].
    + rewrite <- IH. unfold dict_keys. simpl. rewrite elem_of_cons.
      split; [intros [->|]; [done|done] | auto].
Qed.

Lemma dict_get_nodup {V} (d : dict V) k v :
  NoDup (dict_keys d) -> (k, v) ∈ d -> dict_get d k = Some v.
Proof.
  induction d as [|[k' v'] r IH]; simpl; intros Hnd Hin.
  - inversion Hin.
  - apply NoDup_cons in Hnd as [Hk' Hnd].
    apply elem_of_cons in Hin as [[= <- <-]|Hin].
    + by rewrite String.eqb_refl.
    + destruct (String.eqb_spec k' k) as [->|Hne]; [|auto].
      exfalso. apply Hk'. apply (list_elem_of_fmap_2 fst) in Hin. exact Hin.
Qed.

Lemma heappush_perm h x : heappush h x ≡ₚ x :: h.
Proof.
  induction h as [|y t IH]; simpl; [done|].
  destruct (entry_leb x y); [done|].
  rewrite IH. apply Permutation_swap.
Qed.

Lemma elem_of_heappush h x y : y ∈ heappush h x <-> y = x \/ y ∈ h.
Proof. rewrite heappush_perm. apply elem_of_cons. Qed.

Lemma length_heappush h x : length (heappush h x) = S (length h).
Proof. by rewrite heappush_perm. Qed.

(** The queue stays in increasing order through the run, so [heappop]
    hands out a least entry at every iteration. *)
Lemma string_leb_trans a b c :
  String.leb a b = true -> String.leb b c = true -> String.leb a c = true.
Proof.
  unfold String.leb. revert b c.
  induction a as [|x a IH]; intros [|y b] [|z c]; simpl; try done.
  unfold Ascii.compare.
  destruct (N.compare_spec (Ascii.N_of_ascii x) (Ascii.N_of_ascii y)),
    (N.compare_spec (Ascii.N_of_ascii y) (Ascii.N_of_ascii z)),
    (N.compare_spec (Ascii.N_of_ascii x) (Ascii.N_of_ascii z));
    try done; try lia.
  apply IH.
Qed.

Lemma entry_leb_total a b : entry_leb a b = true \/ entry_leb b a = true.
Proof.
  unfold entry_leb. destruct a as [d u], b as [d' u']. simpl.
  destruct (Z.ltb_spec d d'), (Z.ltb_spec d' d), (Z.eqb_spec d d'),
    (Z.eqb_spec d' d); simpl; try lia; auto.
  destruct (String.leb_total u u'); auto.
Qed.

Lemma entry_leb_trans a b c :
  entry_leb a b = true -> entry_leb b c = true -> entry_leb a c = true.
Proof.
  unfold entry_leb. destruct a as [d u], b as [d' u'], c as [d'' u'']. simpl.
  destruct (Z.ltb_spec d d'), (Z.ltb_spec d' d''), (Z.ltb_spec d d''),
    (Z.eqb_spec d d'), (Z.eqb_spec d' d''), (Z.eqb_spec d d'');
    simpl; try lia; try done.
  apply string_leb_trans.
Qed.

Lemma heappush_sorted h x : queue_sorted h -> queue_sorted (heappush h x).
Proof.
  unfold queue_sorted. induction 1 as [|y t Ht IH Hy]; simpl.
  - repeat constructor.
  - destruct (entry_leb x y) eqn:Hxy.
    + constructor; [by constructor|]. constructor; [done|].
      eapply Forall_impl; [exact Hy|]. intros z Hz. simpl in Hz.
      by eapply entry_leb_trans.
    + constructor; [done|]. rewrite heappush_perm. constructor; [|done].
      destruct (entry_leb_total x y); [congruence|done].
Qed.

Lemma heappop_least h x rest :
  queue_sorted h -> heappop h = Some (x, rest) ->
  queue_sorted rest /\ forall y, y ∈ rest -> entry_leb x y = true.
Proof.
  destruct 1 as [|y t Ht Hy]; simpl; [done|]. intros [= <- <-].
  split; [done|]. by apply Forall_forall.
Qed.

Lemma for_items_sorted d u st items st' :
  queue_sorted (fila_prioridade st) ->
  for_items d u st items = Returns st' ->
  queue_sorted (fila_prioridade st').
Proof.
  revert st. induction items as [|[x w] items IH]; intros st Hs.
  - by intros [= <-].
  - cbn [for_items]. unfold relax.
    destruct (distancias st !! x) as [dx|]; [|done].
    destruct (dist_ltb (Fin (d + w)) dx); [|by apply IH].
    destruct (caminhos st !! u) as [p|]; [|done].
    apply IH. simpl. by apply heappush_sorted.
Qed.

Lemma body_sorted g st x rest st' :
  queue_sorted (fila_prioridade st) -> fila_prioridade st = x :: rest ->
  body g st x rest = Returns st' -> queue_sorted (fila_prioridade st').
Proof.
  intros Hs Hf. destruct x as [d u]. unfold body.
  assert (Hrest : queue_sorted rest).
  { rewrite Hf in Hs. by inversion Hs. }
  destruct (distancias st !! u) as [dv|]; [|done].
  destruct (dist_gtb (Fin d) dv); [by intros [= <-]|].
  destruct (dict_get g u) as [a|]; [|done].
  by apply for_items_sorted.
Qed.

Lemma init_sorted g s : queue_sorted (fila_prioridade (init g s)).
Proof. repeat constructor. Qed.

(** The tables of lines 19 and 21. *)
Lemma lookup_fresh_table {V} (c : V) (ks : list string) v :
  (list_to_map (map (fun k => (k, c)) ks) : gmap string V) !! v
  = if decide (v ∈ ks) then Some c else None.
Proof.
  induction ks as [|k ks IH].
  - cbn [map list_to_map foldr]. rewrite lookup_empty.
    destruct (decide (v ∈ [])) as [H|H]; [inversion H|done].
  - cbn [map list_to_map foldr uncurry]. 
    destruct (decide (k = v)) as [->|Hne].
    + rewrite lookup_insert_eq.
      destruct (decide (v ∈ v :: ks)) as [H|H]; [done|]. exfalso. apply H. left.
    + rewrite lookup_insert_ne by done. rewrite IH.
      destruct (decide (v ∈ ks)) as [H|H], (decide (v ∈ k :: ks)) as [H'|H'];
        try done.
      * exfalso. apply H'. by right.
      * apply elem_of_cons in H' as [->|?]; done.
Qed.

Lemma closed_closed_edges g : closed g -> closed_edges g.
Proof.
  intros Hcl u x w (a & Ha & Hin). apply dict_get_elem in Ha.
  unfold closed in Hcl. rewrite Forall_forall in Hcl.
  specialize (Hcl _ Ha). simpl in Hcl. rewrite Forall_forall in Hcl.
  exact (Hcl _ Hin).
Qed.

Lemma nonneg_nonneg_edges g : nonneg g -> nonneg_edges g.
Proof.
  intros Hnn u x w (a & Ha & Hin). apply dict_get_elem in Ha.
  unfold nonneg in Hnn. rewrite Forall_forall in Hnn.
  specialize (Hnn _ Ha). simpl in Hnn. rewrite Forall_forall in Hnn.
  exact (Hnn _ Hin).
Qed.

(** ** The loop invariant *)

Section Invariant.
Variable g : graph.
Variable s : vertex.
Hypothesis Hnn : nonneg_edges g.

Lemma edge_nonneg u x w : edge g u x w -> 0 <= w.
Proof. apply Hnn. Qed.

Lemma walk_nonneg v l d : walk g s v l d -> 0 <= d.
Proof.
  induction 1 as [|u x w l d _ IH He]; [lia|].
  apply edge_nonneg in He. lia.
Qed.

Lemma table_le_refl D : table_le D D.
Proof. intros v dv H. exists dv. split; [done|lia]. Qed.

Lemma table_le_trans D1 D2 D3 :
  table_le D1 D2 -> table_le D2 D3 -> table_le D1 D3.
Proof.
  intros H12 H23 v dv H. destruct (H12 _ _ H) as (d2 & H2 & ?).
  destruct (H23 _ _ H2) as (d3 & H3 & ?). exists d3. split; [done|lia].
Qed.

Lemma relaxed_mono D D' v d : table_le D D' -> relaxed g D v d -> relaxed g D' v d.
Proof.
  intros Hle Hr x w He. destruct (Hr _ _ He) as (dx & Hx & ?).
  destruct (Hle _ _ Hx) as (dx' & Hx' & ?). exists dx'. split; [done|lia].
Qed.

Lemma init_inv : inv g s None (init g s).
Proof.
  split; simpl.
  - intros v Hv. destruct (decide (s = v)) as [->|Hne].
    + rewrite lookup_insert_eq. eauto.
    + rewrite lookup_insert_ne by done. rewrite lookup_fresh_table.
      destruct (decide (v ∈ dict_keys g)); [eauto|done].
  - by rewrite !lookup_insert_eq.
  - intros v d. destruct (decide (s = v)) as [->|Hne].
    + rewrite !lookup_insert_eq. intros [= <-]. exists [v].
      split; [done|constructor].
    + rewrite lookup_insert_ne by done. rewrite lookup_fresh_table.
      destruct (decide (v ∈ dict_keys g)); intros ?; simplify_eq.
  - intros v. destruct (decide (s = v)) as [->|Hne].
    + by rewrite lookup_insert_eq.
    + rewrite !lookup_insert_ne by done. rewrite !lookup_fresh_table.
      by destruct (decide (v ∈ dict_keys g)).
  - intros d v Hin. apply list_elem_of_singleton in Hin as [= -> ->].
    exists 0. rewrite lookup_insert_eq. split; [done|lia].
  - intros v d. destruct (decide (s = v)) as [->|Hne].
    + rewrite lookup_insert_eq. intros [= <-]. left. left.
    + rewrite lookup_insert_ne by done. rewrite lookup_fresh_table.
      destruct (decide (v ∈ dict_keys g)); intros ?; simplify_eq.
  - intros v d l y. destruct (decide (s = v)) as [->|Hne].
    + rewrite !lookup_insert_eq. intros [= <-] [= <-] ->%list_elem_of_singleton.
      exists 0. rewrite lookup_insert_eq. split; [done|lia].
    + rewrite lookup_insert_ne by done. rewrite lookup_fresh_table.
      destruct (decide (v ∈ dict_keys g)); intros ?; simplify_eq.
  - intros v d l. destruct (decide (s = v)) as [->|Hne].
    + rewrite !lookup_insert_eq. intros _ [= <-]. apply NoDup_singleton.
    + rewrite lookup_insert_ne by done. rewrite lookup_fresh_table.
      destruct (decide (v ∈ dict_keys g)); intros ?; simplify_eq.
Qed.

Lemma relax_inv d u a st it st' :
  inv g s (Some (d, u)) st ->
  distancias st !! u = Some (Fin d) ->
  dict_get g u = Some a -> it ∈ a ->
  relax d u st it = Returns st' ->
  inv g s (Some (d, u)) st' /\ distancias st' !! u = Some (Fin d) /\
  (exists dx, distancias st' !! fst it = Some (Fin dx) /\ dx <= d + snd it) /\
  table_le (distancias st) (distancias st').
Proof.
  intros HI Hu Ha Hit. destruct it as [x w]. unfold relax.
  assert (He : edge g u x w) by (exists a; done).
  pose proof (edge_nonneg _ _ _ He) as Hw.
  destruct (inv_path _ _ _ _ HI _ _ Hu) as (p & Hp & Hwalk).
  pose proof (walk_nonneg _ _ _ Hwalk) as Hd.
  destruct (distancias st !! x) as [dx|] eqn:Hx; [|discriminate].
  destruct (dist_ltb (Fin (d + w)) dx) eqn:Hlt.
  - rewrite Hp. intros [= <-]. simpl.
    assert (Hxu : x <> u).
    { intros ->. rewrite Hu in Hx. injection Hx as <-. simpl in Hlt. lia. }
    assert (Hxs : x <> s).
    { intros ->. destruct (inv_src _ _ _ _ HI) as [Hs _]. rewrite Hs in Hx.
      injection Hx as <-. simpl in Hlt. lia. }
    assert (Hle : table_le (distancias st) (<[x:=Fin (d + w)]> (distancias st))).
    { intros v dv Hv. destruct (decide (x = v)) as [->|Hne].
      - rewrite lookup_insert_eq. rewrite Hv in Hx. injection Hx as <-.
        simpl in Hlt. exists (d + w). split; [done|lia].
      - rewrite lookup_insert_ne by done. exists dv. split; [done|lia]. }
    split; [|split; [|split]]; [| |simpl|done].
    + split; simpl.
      * intros v Hv. destruct (decide (x = v)) as [->|Hne].
        -- rewrite lookup_insert_eq. eauto.
        -- rewrite lookup_insert_ne by done. by apply (inv_keys _ _ _ _ HI).
      * rewrite !lookup_insert_ne by done. apply (inv_src _ _ _ _ HI).
      * intros v d'. destruct (decide (x = v)) as [->|Hne].
        -- rewrite !lookup_insert_eq. intros [= <-].
           exists (p ++ [v]). split; [done|]. by econstructor.
        -- rewrite !lookup_insert_ne by done. apply (inv_path _ _ _ _ HI).
      * intros v. destruct (decide (x = v)) as [->|Hne].
        -- by rewrite lookup_insert_eq.
        -- rewrite !lookup_insert_ne by done. apply (inv_inf _ _ _ _ HI).
      * intros d' v Hin. apply elem_of_heappush in Hin as [[= -> ->]|Hin].
        -- exists (d + w). rewrite lookup_insert_eq. split; [done|lia].
        -- destruct (inv_fila _ _ _ _ HI _ _ Hin) as (dv & Hv & ?).
           destruct (Hle _ _ Hv) as (dv' & Hv' & ?).
           exists dv'. split; [done|lia].
      * intros v d'. destruct (decide (x = v)) as [->|Hne].
        -- rewrite lookup_insert_eq. intros [= <-]. left.
           apply elem_of_heappush. by left.
        -- rewrite lookup_insert_ne by done. intros Hv.
           destruct (inv_open _ _ _ _ HI _ _ Hv) as [Hin|[Hr|Hc]].
           ++ left. apply elem_of_heappush. by right.
           ++ right. left. by eapply relaxed_mono.
           ++ right. by right.
      * intros v d' l y. destruct (decide (x = v)) as [->|Hne].
        -- rewrite !lookup_insert_eq. intros [= <-] [= <-] Hy.
           apply elem_of_app in Hy as [Hy|Hy%list_elem_of_singleton].
           ++ destruct (inv_via _ _ _ _ HI u d p y Hu Hp Hy) as (dy & Hdy & ?).
              destruct (Hle _ _ Hdy) as (dy' & Hdy' & ?).
              exists dy'. split; [done|lia].
           ++ subst y. exists (d + w). rewrite lookup_insert_eq.
              split; [done|lia].
        -- rewrite !lookup_insert_ne by done. intros Hv Hl Hy.
           destruct (inv_via _ _ _ _ HI v d' l y Hv Hl Hy) as (dy & Hdy & ?).
           destruct (Hle _ _ Hdy) as (dy' & Hdy' & ?).
           exists dy'. split; [done|lia].
      * intros v d' l. destruct (decide (x = v)) as [->|Hne].
        -- rewrite !lookup_insert_eq. intros _ [= <-].
           apply NoDup_app. split; [by eapply (inv_simple _ _ _ _ HI u)|].
           split; [|apply NoDup_singleton].
           intros y Hy ->%list_elem_of_singleton.
           destruct (inv_via _ _ _ _ HI u d p v Hu Hp Hy) as (dy & Hdy & ?).
           rewrite Hdy in Hx. injection Hx as <-. simpl in Hlt. lia.
        -- rewrite !lookup_insert_ne by done. apply (inv_simple _ _ _ _ HI).
    + by rewrite lookup_insert_ne.
    + exists (d + w). rewrite lookup_insert_eq. split; [done|lia].
  - intros [= <-]. split; [done|]. split; [done|]. split.
    + simpl. rewrite Hx. destruct dx as [dx|]; [|done]. simpl in Hlt.
      exists dx. split; [done|lia].
    + apply table_le_refl.
Qed.

Lemma for_items_inv d u a items st st' :
  inv g s (Some (d, u)) st ->
  distancias st !! u = Some (Fin d) ->
  dict_get g u = Some a -> (forall it, it ∈ items -> it ∈ a) ->
  for_items d u st items = Returns st' ->
  inv g s (Some (d, u)) st' /\ distancias st' !! u = Some (Fin d) /\
  (forall x w, (x, w) ∈ items ->
     exists dx, distancias st' !! x = Some (Fin dx) /\ dx <= d + w) /\
  table_le (distancias st) (distancias st').
Proof.
  intros HI Hu Ha. revert st HI Hu.
  induction items as [|it items IH]; intros st HI Hu Hsub; simpl.
  - intros [= <-]. split; [done|]. split; [done|]. split.
    + intros x w Hin. inversion Hin.
    + apply table_le_refl.
  - destruct (relax d u st it) as [st1| |] eqn:Hr; try discriminate.
    intros Hfor.
    destruct (relax_inv _ _ _ _ _ _ HI Hu Ha (Hsub _ ltac:(left)) Hr)
      as (HI1 & Hu1 & (dx & Hx & Hdx) & Hle1).
    destruct (IH st1 HI1 Hu1 (fun it' H => Hsub it' ltac:(by right)) Hfor)
      as (HI' & Hu' & Hrel & Hle').
    split; [done|]. split; [done|]. split.
    + intros x w Hin. apply elem_of_cons in Hin as [<-|Hin]; [|eauto].
      simpl in *. destruct (Hle' _ _ Hx) as (dx' & Hx' & ?).
      exists dx'. split; [done|lia].
    + by eapply table_le_trans.
Qed.

(** The state after [heappop]. *)
Lemma pop_inv st d u rest cur :
  inv g s None st -> fila_prioridade st = (d, u) :: rest ->
  (forall v dv, distancias st !! v = Some (Fin dv) -> (dv, v) = (d, u) ->
     cur = Some (d, u)) ->
  inv g s cur {| distancias := distancias st; caminhos := caminhos st;
             fila_prioridade := rest |}.
Proof.
  intros [H1 H2 H3 H4 H5 H6 H7 H8] Hf Hcur. split; simpl; try done.
  - intros d' v Hin. apply H5. rewrite Hf. by right.
  - intros v dv Hv. destruct (H6 _ _ Hv) as [Hin|[Hr|Hc]]; [|auto|done].
    rewrite Hf in Hin. apply elem_of_cons in Hin as [Heq|Hin]; [|auto].
    right. right. rewrite Heq. eauto.
Qed.

Lemma pop_fresh st d u rest dv :
  inv g s None st -> fila_prioridade st = (d, u) :: rest ->
  distancias st !! u = Some dv -> dist_gtb (Fin d) dv = false ->
  dv = Fin d.
Proof.
  intros HI Hf Hu Hgt. destruct (inv_fila _ _ _ _ HI d u) as (du & Hu' & Hle).
  { rewrite Hf. left. }
  rewrite Hu in Hu'. injection Hu' as ->. simpl in Hgt. f_equal. lia.
Qed.

Lemma body_inv st x rest st' :
  inv g s None st -> fila_prioridade st = x :: rest ->
  body g st x rest = Returns st' -> inv g s None st'.
Proof.
  intros HI Hf. destruct x as [d u]. unfold body.
  destruct (distancias st !! u) as [dv|] eqn:Hu; [|done].
  destruct (dist_gtb (Fin d) dv) eqn:Hgt.
  - intros [= <-]. apply (pop_inv st d u); [done|done|].
    intros v dv' Hv [= -> ->]. rewrite Hu in Hv. injection Hv as ->.
    simpl in Hgt. lia.
  - pose proof (pop_fresh _ _ _ _ _ HI Hf Hu Hgt) as ->.
    destruct (dict_get g u) as [a|] eqn:Ha; [|discriminate].
    intros Hfor.
    destruct (for_items_inv d u a a _ st'
                (pop_inv st d u rest (Some (d, u)) HI Hf ltac:(done)) Hu Ha
                ltac:(done) Hfor) as (HI' & Hu' & Hrel & _).
    destruct HI' as [H1 H2 H3 H4 H5 H6 H7 H8]. split; try done.
    intros v dv Hv. destruct (H6 _ _ Hv) as [Hin|[Hr|Hc]]; [auto|auto|].
    injection Hc as -> ->. right. left.
    intros x w (a' & Ha' & Hin). rewrite Ha in Ha'. injection Ha' as <-.
    eauto.
Qed.

Lemma loop_inv fuel st D P :
  inv g s None st -> loop fuel g st = Returns (D, P) ->
  inv g s None {| distancias := D; caminhos := P; fila_prioridade := [] |}.
Proof.
  revert st. induction fuel as [|fuel IH]; intros st HI; simpl.
  - destruct st as [D0 P0 [|x rest]]; simpl; [|discriminate].
    by intros [= <- <-].
  - destruct st as [D0 P0 [|x rest]]; simpl; [by intros [= <- <-]|].
    destruct (body _ _ _ _) as [st'| |] eqn:Hb; try discriminate.
    apply IH. by eapply body_inv.
Qed.

(** What the invariant says once the queue is empty. *)
Lemma final_lower D P v l d :
  inv g s None {| distancias := D; caminhos := P; fila_prioridade := [] |} ->
  walk g s v l d -> exists dv, D !! v = Some (Fin dv) /\ dv <= d.
Proof.
  intros HI. induction 1 as [|u x w l d _ (du & Hu & Hle) He].
  - exists 0. split; [apply (inv_src _ _ _ _ HI)|lia].
  - destruct (inv_open _ _ _ _ HI _ _ Hu) as [Hin|[Hr|Hc]];
      [inversion Hin| |discriminate].
    destruct (Hr _ _ He) as (dx & Hx & ?). exists dx. split; [done|lia].
Qed.

End Invariant.

(** ** Paths as vertex lists *)

Lemma edge_peso g u x w : adjacency_ok g -> edge g u x w -> peso g u x = Some w.
Proof.
  intros Hok (a & Ha & Hin). unfold peso. rewrite Ha.
  apply dict_get_nodup; [|done].
  apply dict_get_elem in Ha. unfold adjacency_ok in Hok.
  rewrite Forall_forall in Hok. exact (Hok _ Ha).
Qed.

Lemma chain_cons g a b r :
  chain g (a :: b :: r) <-> (exists w, edge g a b w) /\ chain g (b :: r).
Proof. done. Qed.

Lemma path_weight_cons g a b r :
  path_weight g (a :: b :: r)
  = match peso g a b, path_weight g (b :: r) with
    | Some w, Some d => Some (w + d)
    | _, _ => None
    end.
Proof. done. Qed.

Lemma chain_snoc g l u x :
  chain g l -> last l = Some u -> (exists w, edge g u x w) -> chain g (l ++ [x]).
Proof.
  induction l as [|a l IH]; [done|]. destruct l as [|b r].
  - intros _ [= ->] He. by apply chain_cons.
  - intros [Hab Hc]%chain_cons Hl He.
    change (chain g (a :: b :: (r ++ [x]))). apply chain_cons.
    split; [done|]. by apply IH.
Qed.

Lemma path_weight_snoc g l u x d w :
  path_weight g l = Some d -> last l = Some u -> peso g u x = Some w ->
  path_weight g (l ++ [x]) = Some (d + w).
Proof.
  revert d. induction l as [|a l IH]; intros d; [done|]. destruct l as [|b r].
  - intros [= <-] [= ->] Hp. change (path_weight g [u; x] = Some (0 + w)).
    rewrite path_weight_cons, Hp. simpl. f_equal. lia.
  - rewrite path_weight_cons.
    destruct (peso g a b) as [wab|] eqn:Hab; [|done].
    destruct (path_weight g (b :: r)) as [d'|] eqn:Hd'; [|done].
    intros [= <-] Hl Hp.
    change (path_weight g (a :: b :: (r ++ [x])) = Some (wab + d' + w)).
    rewrite path_weight_cons, Hab.
    change (b :: r ++ [x]) with ((b :: r) ++ [x]).
    rewrite (IH d' eq_refl Hl Hp). f_equal. lia.
Qed.

Lemma walk_ends g s v l d : walk g s v l d -> head l = Some s /\ last l = Some v.
Proof.
  induction 1 as [|u x w l d _ [Hh Hl] He]; [done|]. split.
  - destruct l; [done|]. done.
  - apply last_snoc.
Qed.

Lemma walk_chain g s v l d : walk g s v l d -> chain g l.
Proof.
  induction 1 as [|u x w l d Hw IH He]; [done|].
  apply walk_ends in Hw as [_ Hl]. eapply chain_snoc; eauto.
Qed.

Lemma walk_weight g s v l d :
  adjacency_ok g -> walk g s v l d -> path_weight g l = Some d.
Proof.
  intros Hok. induction 1 as [|u x w l d Hw IH He]; [done|].
  apply walk_ends in Hw as [_ Hl].
  eapply path_weight_snoc; eauto using edge_peso.
Qed.

(** ** More fuel changes nothing *)

Lemma loop_fuel_mono fuel k g st r :
  loop fuel g st = r -> r <> OutOfFuel -> loop (fuel + k) g st = r.
Proof.
  revert st. induction fuel as [|fuel IH]; intros st; simpl.
  - destruct (heappop (fila_prioridade st)) as [[x rest]|] eqn:Hp.
    + intros <- Hr. done.
    + intros <- _. destruct k; simpl; by rewrite Hp.
  - destruct (heappop (fila_prioridade st)) as [[x rest]|]; [|done].
    destruct (body g st x rest) as [st'| |]; [apply IH|done|done].
Qed.

Lemma loop_step fuel g st x rest :
  fila_prioridade st = x :: rest ->
  loop (S fuel) g st
  = match body g st x rest with
    | Returns st' => loop fuel g st'
    | Raises e => Raises e
    | OutOfFuel => OutOfFuel
    end.
Proof. intros Hf. simpl. by rewrite Hf. Qed.

Lemma loop_fuel_agree n m g st T T' :
  loop n g st = Returns T -> loop m g st = Returns T' -> T = T'.
Proof.
  intros Hn Hm.
  apply (loop_fuel_mono n m) in Hn; [|done].
  apply (loop_fuel_mono m n) in Hm; [|done].
  rewrite (Nat.add_comm m n) in Hm. congruence.
Qed.

(** ** Key errors *)

Section Keys.
Variable g : graph.
Hypothesis Hcl : closed_edges g.

Lemma closed_item u a x w :
  dict_get g u = Some a -> (x, w) ∈ a -> x ∈ dict_keys g.
Proof. intros Ha Hin. apply (Hcl u x w). by exists a. Qed.

Lemma init_dom s : s ∈ dict_keys g -> dom_inv g (init g s).
Proof.
  intros Hs. split; simpl.
  - intros v Hv. destruct (decide (s = v)) as [->|Hne].
    + rewrite lookup_insert_eq. eauto.
    + rewrite lookup_insert_ne by done. rewrite lookup_fresh_table.
      destruct (decide _); [eauto|done].
  - intros v Hv. destruct (decide (s = v)) as [->|Hne].
    + rewrite lookup_insert_eq. eauto.
    + rewrite lookup_insert_ne by done. rewrite lookup_fresh_table.
      destruct (decide _); [eauto|done].
  - intros d v Hin. by apply list_elem_of_singleton in Hin as [= -> ->].
Qed.

Lemma relax_dom d u st it :
  dom_inv g st -> u ∈ dict_keys g -> fst it ∈ dict_keys g ->
  exists st', relax d u st it = Returns st' /\ dom_inv g st'.
Proof.
  intros [H1 H2 H3] Hu Hx. destruct it as [x w]. simpl in Hx. unfold relax.
  destruct (H1 _ Hx) as [dx ->]. destruct (H2 _ Hu) as [p ->].
  destruct (dist_ltb _ _); eexists; (split; [done|]); [|done].
  split; simpl.
  - intros v Hv. rewrite lookup_insert. destruct (decide _); eauto.
  - intros v Hv. rewrite lookup_insert. destruct (decide _); eauto.
  - intros d' v [[= -> ->]|Hin]%elem_of_heappush; eauto.
Qed.

Lemma for_items_dom d u st items :
  dom_inv g st -> u ∈ dict_keys g ->
  Forall (fun it => fst it ∈ dict_keys g) items ->
  exists st', for_items d u st items = Returns st' /\ dom_inv g st'.
Proof.
  intros HD Hu Hall. revert st HD.
  induction Hall as [|it items Hit _ IH]; intros st HD; simpl; [eauto|].
  destruct (relax_dom d u st it HD Hu Hit) as (st1 & -> & HD1). eauto.
Qed.

Lemma body_dom st x rest :
  dom_inv g st -> fila_prioridade st = x :: rest ->
  exists st', body g st x rest = Returns st' /\ dom_inv g st'.
Proof.
  intros HD Hf. destruct x as [d u]. unfold body.
  assert (Hu : u ∈ dict_keys g).
  { apply (dom_fila _ _ HD d). rewrite Hf. left. }
  assert (HD1 : dom_inv g {| distancias := distancias st;
                           caminhos := caminhos st;
                           fila_prioridade := rest |}).
  { destruct HD as [H1 H2 H3]. split; simpl; try done.
    intros d' v Hin. apply (H3 d'). rewrite Hf. by right. }
  destruct (dom_dist _ _ HD _ Hu) as [du ->].
  destruct (dist_gtb _ _); [eauto|].
  pose proof Hu as [a Ha]%dict_get_keys. rewrite Ha.
  apply for_items_dom; [done|done|].
  apply Forall_forall. intros [x w] Hin. simpl. by eapply closed_item.
Qed.

Lemma loop_dom fuel st e :
  dom_inv g st -> loop fuel g st <> Raises e.
Proof.
  revert st. induction fuel as [|fuel IH]; intros st HD; simpl.
  - by destruct (heappop _) as [[? ?]|].
  - destruct (fila_prioridade st) as [|x rest] eqn:Hf; simpl; [done|].
    destruct (body_dom st x rest HD Hf) as (st' & -> & HD'). by apply IH.
Qed.

End Keys.

(** ** Termination *)

Lemma sum_list_with_ext {A} (f f' : A -> nat) (l : list A) :
  (forall y, y ∈ l -> f' y = f y) -> sum_list_with f' l = sum_list_with f l.
Proof.
  induction l as [|a l IH]; intros H; simpl; [done|].
  rewrite (H a) by left. rewrite IH; [done|]. intros y Hy. apply H. by right.
Qed.

Lemma sum_list_with_le {A} (f f' : A -> nat) (l : list A) :
  (forall y, y ∈ l -> (f' y <= f y)%nat) ->
  (sum_list_with f' l <= sum_list_with f l)%nat.
Proof.
  induction l as [|a l IH]; intros H; simpl; [done|].
  pose proof (H a ltac:(left)). 
  assert (sum_list_with f' l <= sum_list_with f l)%nat; [|lia].
  apply IH. intros y Hy. apply H. by right.
Qed.

Lemma sum_list_with_lt {A} (f f' : A -> nat) (l : list A) x :
  x ∈ l -> (forall y, y ∈ l -> (f' y <= f y)%nat) -> (f' x < f x)%nat ->
  (sum_list_with f' l < sum_list_with f l)%nat.
Proof.
  induction l as [|a l IH]; intros Hx H Hlt; simpl; [inversion Hx|].
  pose proof (H a ltac:(left)).
  assert (Hl : forall y, y ∈ l -> (f' y <= f y)%nat).
  { intros y Hy. apply H. by right. }
  apply elem_of_cons in Hx as [<-|Hx].
  - pose proof (sum_list_with_le f f' l Hl). lia.
  - specialize (IH Hx Hl Hlt). lia.
Qed.

Section Termination.
Variable g : graph.

Lemma mu_lt_wf : well_founded (mu_lt g).
Proof.
  apply (wf_incl _ _
    (fun st' st => slexprod _ _ (slexprod _ _ lt lt) lt (mu g st') (mu g st))).
  - intros st' st [[H|[H1 H2]]|(H1 & H2 & H3)]; unfold mu.
    + left. by left.
    + left. rewrite H1. by right.
    + rewrite H1, H2. by right.
  - apply (wf_inverse_image state _ _ (mu g)).
    apply wf_slexprod; [apply wf_slexprod|]; apply lt_wf.
Qed.

Lemma tables_lt_trans D1 D2 D3 :
  tables_lt g D1 D2 -> tables_lt g D2 D3 -> tables_lt g D1 D3.
Proof. unfold tables_lt. lia. Qed.

Lemma relax_progress d u st it st' :
  (forall v dv, distancias st !! v = Some (Fin dv) -> 0 <= dv) ->
  0 <= d + snd it -> fst it ∈ dict_keys g ->
  relax d u st it = Returns st' ->
  st' = st \/ tables_lt g (distancias st') (distancias st).
Proof.
  intros Hpos Hc Hx. destruct it as [x w]. simpl in Hc, Hx. unfold relax.
  destruct (distancias st !! x) as [dx|] eqn:HDx; [|done].
  destruct (dist_ltb (Fin (d + w)) dx) eqn:Hlt; [|intros [= <-]; by left].
  destruct (caminhos st !! u) as [p|]; [|done].
  intros [= <-]. right. simpl. unfold tables_lt, m_inf, m_fin.
  destruct dx as [dx|].
  - simpl in Hlt. pose proof (Hpos _ _ HDx). right. split.
    + apply sum_list_with_ext. intros y _. unfold weigh_inf.
      rewrite lookup_insert.
      destruct (decide (x = y)) as [<-|]; [by rewrite HDx|done].
    + apply (sum_list_with_lt _ _ _ x); [done| |].
      * intros y _. unfold weigh_fin. rewrite lookup_insert.
        destruct (decide (x = y)) as [<-|]; [rewrite HDx; lia|lia].
      * unfold weigh_fin. rewrite lookup_insert_eq, HDx. lia.
  - left. apply (sum_list_with_lt _ _ _ x); [done| |].
    + intros y _. unfold weigh_inf. rewrite lookup_insert.
      destruct (decide (x = y)) as [<-|]; [rewrite HDx; lia|lia].
    + unfold weigh_inf. rewrite lookup_insert_eq, HDx. lia.
Qed.

End Termination.

Section Total.
Variable g : graph.
Variable s : vertex.
Hypothesis Hnn : nonneg_edges g.
Hypothesis Hcl : closed_edges g.

Lemma inv_pos cur st v dv :
  inv g s cur st -> distancias st !! v = Some (Fin dv) -> 0 <= dv.
Proof.
  intros HI Hv. destruct (inv_path _ _ _ _ HI _ _ Hv) as (l & _ & Hw).
  by eapply walk_nonneg.
Qed.

Lemma for_items_progress d u a items st st' :
  inv g s (Some (d, u)) st ->
  distancias st !! u = Some (Fin d) ->
  dict_get g u = Some a -> (forall it, it ∈ items -> it ∈ a) ->
  for_items d u st items = Returns st' ->
  (distancias st' = distancias st /\
   length (fila_prioridade st') = length (fila_prioridade st)) \/
  tables_lt g (distancias st') (distancias st).
Proof.
  intros HI Hu Ha. revert st HI Hu.
  induction items as [|it items IH]; intros st HI Hu Hsub; simpl.
  - intros [= <-]. by left.
  - destruct (relax d u st it) as [st1| |] eqn:Hr; try discriminate.
    intros Hfor.
    assert (Hit : it ∈ a) by (apply Hsub; left).
    destruct (relax_inv g s Hnn _ _ _ _ _ _ HI Hu Ha Hit Hr)
      as (HI1 & Hu1 & _ & _).
    assert (Hstep : st1 = st \/ tables_lt g (distancias st1) (distancias st)).
    { apply (relax_progress g d u st it); [|  | |done].
      - intros v dv. eapply inv_pos. exact HI.
      - pose proof (inv_pos _ _ _ _ HI Hu).
        assert (0 <= snd it); [|lia].
        apply (edge_nonneg g Hnn u (fst it)). exists a.
        by destruct it.
      - destruct it as [x w]. by eapply closed_item. }
    destruct (IH st1 HI1 Hu1 (fun it' H => Hsub it' ltac:(by right)) Hfor)
      as [[HD Hl]|Hlt].
    + destruct Hstep as [->|Hlt]; [by left|]. right. by rewrite HD.
    + right. destruct Hstep as [->|Hlt1]; [done|].
      by eapply tables_lt_trans.
Qed.

Lemma body_total st x rest :
  inv g s None st -> dom_inv g st -> fila_prioridade st = x :: rest ->
  exists st', body g st x rest = Returns st' /\
    inv g s None st' /\ dom_inv g st' /\ mu_lt g st' st.
Proof.
  intros HI HD Hf.
  destruct (body_dom g Hcl st x rest HD Hf) as (st' & Hb & HD').
  exists st'. split; [done|]. split; [by eapply body_inv|]. split; [done|].
  destruct x as [d u]. unfold body in Hb.
  destruct (distancias st !! u) as [dv|] eqn:Hu; [|done].
  destruct (dist_gtb (Fin d) dv) eqn:Hgt.
  - injection Hb as <-. right. simpl. rewrite Hf. simpl. lia.
  - pose proof (pop_fresh g s _ _ _ _ _ HI Hf Hu Hgt) as ->.
    destruct (dict_get g u) as [a|] eqn:Ha; [|discriminate].
    destruct (for_items_progress d u a a _ st'
                (pop_inv g s st d u rest (Some (d, u)) HI Hf ltac:(done)) Hu Ha
                ltac:(done) Hb) as [[HDeq Hl]|Hlt].
    + right. simpl in *. rewrite HDeq, Hl, Hf. simpl. lia.
    + by left.
Qed.

Lemma loop_total st :
  inv g s None st -> dom_inv g st -> exists fuel T, loop fuel g st = Returns T.
Proof.
  induction (mu_lt_wf g st) as [st _ IH]. intros HI HD.
  destruct (fila_prioridade st) as [|x rest] eqn:Hf.
  - exists O. eexists. simpl. by rewrite Hf.
  - destruct (body_total st x rest HI HD Hf) as (st' & Hb & HI' & HD' & Hlt).
    destruct (IH st' Hlt HI' HD') as (fuel & T & Hloop).
    exists (S fuel), T. simpl. rewrite Hf. simpl. by rewrite Hb.
Qed.

Lemma dijkstra_total :
  s ∈ dict_keys g -> exists fuel T, dijkstra fuel g s = Returns T.
Proof.
  intros Hs. apply loop_total; [by apply init_inv|by apply init_dom].
Qed.

End Total.


(** ** Editing the graph *)

Lemma dict_get_set {V} (d : dict V) k v k' :
  dict_get (dict_set d k v) k' = if decide (k = k') then Some v else dict_get d k'.
Proof.
  induction d as [|[k0 v0] r IH]; simpl.
  - destruct (String.eqb_spec k k'), (decide (k = k')); done.
  - destruct (String.eqb_spec k0 k) as [->|Hne]; simpl.
    + destruct (String.eqb_spec k k'), (decide (k = k')); done.
    + destruct (String.eqb_spec k0 k') as [->|Hne']; [|done].
      by destruct (decide (k = k')).
Qed.

Lemma elem_of_dict_del {V} (d : dict V) k k' v :
  (k', v) ∈ dict_del d k -> (k', v) ∈ d.
Proof.
  induction d as [|[k0 v0] r IH]; simpl; [done|].
  destruct (String.eqb k0 k).
  - intros H. right. auto.
  - intros [->|H]%elem_of_cons; [left|right; auto].
Qed.

Lemma elem_of_dict_set_new {V} (d : dict V) k v kv :
  dict_get d k = None -> kv ∈ dict_set d k v <-> kv ∈ d \/ kv = (k, v).
Proof.
  induction d as [|[k0 v0] r IH]; simpl.
  - intros _. rewrite list_elem_of_singleton. split; [auto|].
    intros [H|H]; [inversion H|done].
  - destruct (String.eqb k0 k); [done|]. intros Hn.
    rewrite !elem_of_cons, (IH Hn). tauto.
Qed.

Lemma dict_keys_set {V} (d : dict V) k v k' :
  k' ∈ dict_keys (dict_set d k v) <-> k' ∈ dict_keys d \/ k' = k.
Proof.
  rewrite !dict_get_keys, dict_get_set.
  destruct (decide (k = k')) as [->|Hne]; [split; eauto|].
  split; [auto|]. intros [H|H]; [done|]. by subst.
Qed.

Lemma edge_remove g u x a b c :
  edge (remove_edge g u x) a b c -> edge g a b c.
Proof.
  unfold remove_edge. destruct (dict_get g u) as [adj|] eqn:Hu; [|done].
  intros (a' & Ha' & Hin). rewrite dict_get_set in Ha'.
  destruct (decide (u = a)) as [->|Hne].
  - injection Ha' as <-. exists adj. split; [done|].
    by eapply elem_of_dict_del.
  - by exists a'.
Qed.

Lemma edge_add g u x w a b c :
  peso g u x = None -> edge g a b c -> edge (add_edge g u x w) a b c.
Proof.
  unfold peso, add_edge. intros Hp (a' & Ha' & Hin).
  destruct (dict_get g u) as [adj|] eqn:Hu.
  - destruct (decide (u = a)) as [->|Hne].
    + rewrite Hu in Ha'. injection Ha' as <-.
      exists (dict_set adj x w). rewrite dict_get_set.
      destruct (decide (a = a)); [|done]. split; [done|].
      apply elem_of_dict_set_new; auto.
    + exists a'. rewrite dict_get_set. by destruct (decide (u = a)).
  - exists a'. rewrite dict_get_set.
    destruct (decide (u = a)) as [->|]; [congruence|done].
Qed.

Lemma edge_add_inv g u x w a b c :
  peso g u x = None -> edge (add_edge g u x w) a b c ->
  edge g a b c \/ (a = u /\ b = x /\ c = w).
Proof.
  unfold peso, add_edge. intros Hp.
  destruct (dict_get g u) as [adj|] eqn:Hu;
    intros (a' & Ha' & Hin); rewrite dict_get_set in Ha';
    destruct (decide (u = a)) as [->|Hne].
  - injection Ha' as <-. apply elem_of_dict_set_new in Hin; [|done].
    destruct Hin as [Hin|[= -> ->]]; [|by right]. left. by exists adj.
  - left. by exists a'.
  - injection Ha' as <-. apply list_elem_of_singleton in Hin as [= -> ->].
    by right.
  - left. by exists a'.
Qed.

Lemma dict_keys_remove_edge g u x v :
  v ∈ dict_keys (remove_edge g u x) <-> v ∈ dict_keys g.
Proof.
  unfold remove_edge. destruct (dict_get g u) as [adj|] eqn:Hu; [|done].
  rewrite dict_keys_set. split; [|auto].
  intros [H| ->]; [done|]. apply dict_get_keys. eauto.
Qed.

Lemma dict_keys_add_edge g u x w v :
  v ∈ dict_keys (add_edge g u x w) <-> v ∈ dict_keys g \/ v = u.
Proof.
  unfold add_edge. destruct (dict_get g u) as [adj|]; apply dict_keys_set.
Qed.

Lemma walk_subgraph g g' s v l d :
  (forall a b c, edge g a b c -> edge g' a b c) ->
  walk g s v l d -> walk g' s v l d.
Proof.
  intros Hsub. induction 1 as [|u x w l d _ IH He]; [constructor|].
  econstructor; eauto.
Qed.

(** ** The returned tables *)

Lemma solve_final g s D P :
  nonneg_edges g -> solve_returns g s (D, P) ->
  inv g s None {| distancias := D; caminhos := P; fila_prioridade := [] |}.
Proof.
  intros Hnn [fuel Hrun]. unfold dijkstra in Hrun.
  eapply loop_inv; [done| |done]. by apply init_inv.
Qed.

Lemma solve_exists g s :
  nonneg_edges g -> closed_edges g -> s ∈ dict_keys g ->
  exists T, solve_returns g s T.
Proof.
  intros Hnn Hcl Hs. destruct (dijkstra_total g s Hnn Hcl Hs) as (fuel & T & H).
  exists T. by exists fuel.
Qed.

Lemma solve_shortest g s D P v :
  nonneg_edges g -> solve_returns g s (D, P) -> v ∈ dict_keys g ->
  exists delta, D !! v = Some delta /\ shortest g s v delta.
Proof.
  intros Hnn Hret Hv. pose proof (solve_final _ _ _ _ Hnn Hret) as HI.
  destruct (inv_keys _ _ _ _ HI v Hv) as [delta Hd]. simpl in Hd.
  exists delta. split; [done|]. destruct delta as [d|]; simpl.
  - split.
    + destruct (inv_path _ _ _ _ HI v d Hd) as (l & Hl & Hw).
      exists l. split; [done|]. by eapply (inv_simple _ _ _ _ HI v d).
    + intros l d' Hw. destruct (final_lower g s D P v l d' HI Hw) as (dv & H & ?).
      simpl in Hd. rewrite Hd in H. injection H as <-. lia.
  - intros l d' Hw. destruct (final_lower g s D P v l d' HI Hw) as (dv & H & ?).
    rewrite Hd in H. discriminate.
Qed.

Lemma solve_monotone g g' s D P D' P' v delta delta' :
  nonneg_edges g -> nonneg_edges g' ->
  (forall a b c, edge g a b c -> edge g' a b c) ->
  solve_returns g s (D, P) -> solve_returns g' s (D', P') ->
  D !! v = Some delta -> D' !! v = Some delta' -> dist_le delta' delta.
Proof.
  intros Hnn Hnn' Hsub Hret Hret' Hv Hv'.
  pose proof (solve_final _ _ _ _ Hnn Hret) as HI.
  pose proof (solve_final _ _ _ _ Hnn' Hret') as HI'.
  destruct delta as [d|]; [|by destruct delta'].
  destruct (inv_path _ _ _ _ HI v d Hv) as (l & _ & Hw).
  apply (walk_subgraph g g') in Hw; [|done].
  destruct (final_lower g' s D' P' v l d HI' Hw) as (dv & H & ?).
  rewrite Hv' in H. injection H as ->. done.
Qed.

(** ** Key errors on the first iteration *)

Lemma for_items_raises (g : graph) d u st items :
  (forall v, is_Some (distancias st !! v) <-> v ∈ dict_keys g) ->
  is_Some (caminhos st !! u) ->
  (exists x w, (x, w) ∈ items /\ ~ x ∈ dict_keys g) ->
  exists k, ~ k ∈ dict_keys g /\ for_items d u st items = Raises (KeyError k).
Proof.
  revert st. induction items as [|[x0 w0] items IH]; intros st Hdom Hu Hbad.
  - destruct Hbad as (x & w & Hin & _). inversion Hin.
  - cbn [for_items]. unfold relax.
    destruct (distancias st !! x0) as [dx|] eqn:Hx0.
    + assert (Hk : x0 ∈ dict_keys g) by (apply Hdom; eauto).
      destruct Hu as [p Hp]. rewrite Hp.
      assert (Hbad' : exists x w, (x, w) ∈ items /\ ~ x ∈ dict_keys g).
      { destruct Hbad as (x & w & Hin & Hx). exists x, w. split; [|done].
        apply elem_of_cons in Hin as [[= -> ->]|Hin]; [done|done]. }
      destruct (dist_ltb (Fin (d + w0)) dx); apply IH; simpl; try done; try eauto.
      * intros v. rewrite lookup_insert.
        destruct (decide (x0 = v)) as [<-|]; [|apply Hdom].
        split; [done|eauto].
      * rewrite lookup_insert. destruct (decide (x0 = u)); eauto.
    + exists x0. split; [|done]. intros Hk. apply Hdom in Hk as [? Hk].
      congruence.
Qed.

Lemma init_dom_exact (g : graph) s v :
  s ∈ dict_keys g ->
  is_Some (distancias (init g s) !! v) <-> v ∈ dict_keys g.
Proof.
  intros Hs. simpl. rewrite lookup_insert.
  destruct (decide (s = v)) as [<-|Hne]; [split; eauto|].
  rewrite lookup_fresh_table. destruct (decide _); split; try done; eauto.
Qed.

Lemma dijkstra_unknown_source (g : graph) s fuel :
  ~ s ∈ dict_keys g -> dijkstra (S fuel) g s = Raises (KeyError s).
Proof.
  intros Hs. unfold dijkstra. simpl. rewrite lookup_insert_eq. simpl.
  destruct (dict_get g s) as [a|] eqn:Ha; [|done].
  exfalso. apply Hs. apply dict_get_keys. eauto.
Qed.

Lemma dijkstra_unknown_neighbour (g : graph) s a fuel :
  dict_get g s = Some a ->
  (exists x w, (x, w) ∈ a /\ ~ x ∈ dict_keys g) ->
  exists k, ~ k ∈ dict_keys g /\ dijkstra (S fuel) g s = Raises (KeyError k).
Proof.
  intros Ha Hbad.
  assert (Hs : s ∈ dict_keys g) by (apply dict_get_keys; eauto).
  destruct (for_items_raises g 0 s
              {| distancias := distancias (init g s);
                 caminhos := caminhos (init g s);
                 fila_prioridade := [] |} a) as (k & Hk & Hr).
  - intros v. by apply init_dom_exact.
  - simpl. rewrite lookup_insert_eq. eauto.
  - done.
  - exists k. split; [done|].
    unfold dijkstra. rewrite (loop_step fuel g (init g s) (0, s) []) by done.
    assert (Hb : body g (init g s) (0, s) []
                 = for_items 0 s
                     {| distancias := distancias (init g s);
                        caminhos := caminhos (init g s);
                        fila_prioridade := [] |} a).
    { unfold body. cbn [distancias init]. rewrite lookup_insert_eq.
      cbn [dist_gtb dist_ltb]. rewrite Z.ltb_irrefl. by rewrite Ha. }
    by rewrite Hb, Hr.
Qed.

(** ** The example graphs *)

Lemma exemplo_returns :
  dijkstra 100 grafo_exemplo "A" = Returns (distancias_exemplo, caminhos_exemplo).
Proof. vm_compute. reflexivity. Qed.

(** * The properties of the specification *)

(** C1.  For a graph with non-negative weights that has the source among
    its keys, the distance table that [dijkstra] returns gives, at every key
    of the graph, the least cumulative weight of a directed path from the
    source to that key, and infinity when there is no such path.  A table is
    returned whenever the adjacency mappings mention keys of the graph
    only. *)
Theorem dijkstra_shortest_distances (g : graph) (s : vertex) :
  nonneg g -> s ∈ dict_keys g ->
  (closed g -> exists D P, solve_returns g s (D, P)) /\
  (forall D P, solve_returns g s (D, P) ->
     forall v, v ∈ dict_keys g ->
       exists delta, D !! v = Some delta /\ shortest g s v delta).
Proof.
  intros Hnn%nonneg_nonneg_edges Hs. split.
  - intros Hcl%closed_closed_edges.
    destruct (solve_exists g s Hnn Hcl Hs) as [[D P] H]. eauto.
  - intros D P Hret v Hv. by eapply solve_shortest.
Qed.

Lemma dijkstra_shortest_distances_witness :
  exists delta,
    distancias_exemplo !! "E" = Some delta /\
    shortest grafo_exemplo "A" "E" delta.
Proof.
  refine (proj2 (dijkstra_shortest_distances grafo_exemplo "A" _ _)
            distancias_exemplo caminhos_exemplo _ "E" _).
  - unfold nonneg. compute_done.
  - compute_done.
  - exists 100%nat. vm_compute. reflexivity.
  - compute_done.
Defined.

(** C2, as the program computes it.  On [grafo_exemplo] with source ["A"]
    the call returns exactly the distances A:0, B:3, C:2, D:1, E:4, F:3,
    G:5, H:2, I:3. *)
Theorem example_distances :
  exists D P, solve_returns grafo_exemplo "A" (D, P) /\ D = distancias_exemplo.
Proof.
  exists distancias_exemplo, caminhos_exemplo. split; [|done].
  exists 100%nat. vm_compute. reflexivity.
Qed.

(** C2, as the specification words it, fails: the distance returned for
    ["E"] is 4 (by A, D, F, E) and the one for ["G"] is 5 (by A, H, G),
    where the scenario has 5 and 4. *)
Lemma example_distances_E_G :
  exists D P,
    dijkstra 100 grafo_exemplo "A" = Returns (D, P) /\
    D !! "E" = Some (Fin 4) /\ D !! "G" = Some (Fin 5) /\
    distancias_cenario !! "E" = Some (Fin 5) /\
    distancias_cenario !! "G" = Some (Fin 4) /\
    D <> distancias_cenario.
Proof.
  exists distancias_exemplo, caminhos_exemplo.
  repeat split; try (vm_compute; reflexivity).
  intros H. apply (f_equal (fun m => m !! "E")) in H. vm_compute in H.
  discriminate.
Qed.

(** C3.  For a graph with non-negative weights that has the source among
    its keys, the returned distance table has 0 at the source and the
    returned path table has the one-element sequence of the source there. *)
Theorem dijkstra_source_entry (g : graph) (s : vertex) :
  nonneg g -> s ∈ dict_keys g ->
  (closed g -> exists D P, solve_returns g s (D, P)) /\
  (forall D P, solve_returns g s (D, P) ->
     D !! s = Some (Fin 0) /\ P !! s = Some [s]).
Proof.
  intros Hnn%nonneg_nonneg_edges Hs. split.
  - intros Hcl%closed_closed_edges.
    destruct (solve_exists g s Hnn Hcl Hs) as [[D P] H]. eauto.
  - intros D P Hret. apply (inv_src _ _ _ _ (solve_final _ _ _ _ Hnn Hret)).
Qed.

Lemma dijkstra_source_entry_witness :
  distancias_exemplo !! "A" = Some (Fin 0) /\
  caminhos_exemplo !! "A" = Some ["A"].
Proof.
  refine (proj2 (dijkstra_source_entry grafo_exemplo "A" _ _)
            distancias_exemplo caminhos_exemplo _).
  - unfold nonneg. compute_done.
  - compute_done.
  - exists 100%nat. vm_compute. reflexivity.
Defined.

(** C4.  For a graph with non-negative weights that has the source among
    its keys, at every vertex whose returned distance is finite the sum of
    the edge weights over the consecutive pairs of the returned path is
    exactly that distance.  (The inner dicts repeat no key, as Python dicts
    do.) *)
Theorem dijkstra_path_weight (g : graph) (s : vertex) :
  adjacency_ok g -> nonneg g -> s ∈ dict_keys g ->
  (closed g -> exists D P, solve_returns g s (D, P)) /\
  (forall D P, solve_returns g s (D, P) ->
     forall v d, D !! v = Some (Fin d) ->
       exists l, P !! v = Some l /\ path_weight g l = Some d).
Proof.
  intros Hok Hnn%nonneg_nonneg_edges Hs. split.
  - intros Hcl%closed_closed_edges.
    destruct (solve_exists g s Hnn Hcl Hs) as [[D P] H]. eauto.
  - intros D P Hret v d Hv.
    destruct (inv_path _ _ _ _ (solve_final _ _ _ _ Hnn Hret) v d Hv)
      as (l & Hl & Hw).
    exists l. split; [done|]. by eapply walk_weight.
Qed.

Lemma dijkstra_path_weight_witness :
  exists l, caminhos_exemplo !! "G" = Some l /\
            path_weight grafo_exemplo l = Some 5.
Proof.
  refine (proj2 (dijkstra_path_weight grafo_exemplo "A" _ _ _)
            distancias_exemplo caminhos_exemplo _ "G" 5 _).
  - unfold adjacency_ok. compute_done.
  - unfold nonneg. compute_done.
  - compute_done.
  - exists 100%nat. vm_compute. reflexivity.
  - vm_compute. reflexivity.
Defined.

(** C5, at integer weights.  For a graph with non-negative integer weights
    that has the source among its keys, at every vertex whose returned
    distance is infinite the returned path is the empty sequence, and the
    graph has no directed path from the source to that vertex. *)
Theorem dijkstra_unreachable (g : graph) (s : vertex) :
  nonneg g -> s ∈ dict_keys g ->
  (closed g -> exists D P, solve_returns g s (D, P)) /\
  (forall D P, solve_returns g s (D, P) ->
     forall v, D !! v = Some Inf ->
       P !! v = Some [] /\ forall l d, ~ walk g s v l d).
Proof.
  intros Hnn%nonneg_nonneg_edges Hs. split.
  - intros Hcl%closed_closed_edges.
    destruct (solve_exists g s Hnn Hcl Hs) as [[D P] H]. eauto.
  - intros D P Hret v Hv. pose proof (solve_final _ _ _ _ Hnn Hret) as HI.
    split; [by apply (inv_inf _ _ _ _ HI)|].
    intros l d Hw. destruct (final_lower g s D P v l d HI Hw) as (dv & H & _).
    rewrite Hv in H. discriminate.
Qed.

Lemma dijkstra_unreachable_witness :
  caminhos_isolado !! "Z" = Some [] /\
  forall l d, ~ walk grafo_isolado "A" "Z" l d.
Proof.
  refine (proj2 (dijkstra_unreachable grafo_isolado "A" _ _)
            distancias_isolado caminhos_isolado _ "Z" _).
  - unfold nonneg. compute_done.
  - compute_done.
  - exists 10%nat. vm_compute. reflexivity.
  - vm_compute. reflexivity.
Defined.

(** ** Float weights: where infinity is a weight or a sum *)

(** C5, as the specification words it, fails at float weights.  An edge
    whose weight is [float('inf')], or edges whose finite weights add up
    beyond the largest float, give a candidate that is not below the
    initial [float('infinity')]; line 36 never holds, and the vertex keeps
    an infinite distance and an empty path although the graph has a path
    to it from the source. *)
Lemma unreachable_fails_at_float_weights :
  (exists D P,
     dijkstra_float 10 grafo_peso_inf "A" = Returns (D, P) /\
     D !! "B" = Some infinity /\ P !! "B" = Some [] /\
     edge_float grafo_peso_inf "A" "B" infinity /\
     PrimFloat.leb 0 infinity = true) /\
  (exists D P,
     dijkstra_float 10 grafo_peso_grande "A" = Returns (D, P) /\
     D !! "C" = Some infinity /\ P !! "C" = Some [] /\
     edge_float grafo_peso_grande "A" "B" f1e308 /\
     edge_float grafo_peso_grande "B" "C" f1e308 /\
     PrimFloat.leb 0 f1e308 = true).
Proof.
  split.
  - eexists _, _. split; [vm_compute; reflexivity|].
    split; [vm_compute; reflexivity|]. split; [vm_compute; reflexivity|].
    split; [|reflexivity]. eexists. split; [reflexivity|left].
  - eexists _, _. split; [vm_compute; reflexivity|].
    split; [vm_compute; reflexivity|]. split; [vm_compute; reflexivity|].
    split; [eexists; split; [reflexivity|left]|].
    split; [eexists; split; [reflexivity|left]|reflexivity].
Qed.

(** ** Runs under any arrangement of the queue *)

Lemma entry_leb_antisym a b :
  entry_leb a b = true -> entry_leb b a = true -> a = b.
Proof.
  unfold entry_leb. destruct a as [d u], b as [d' u']. simpl.
  destruct (Z.ltb_spec d d'), (Z.ltb_spec d' d), (Z.eqb_spec d d'),
    (Z.eqb_spec d' d); simpl; try lia; try done.
  intros H1 H2. f_equal; [done|]. by apply String.leb_antisym.
Qed.

Lemma pops_agree h h' x x' rest rest' :
  h ≡ₚ h' -> pops h x rest -> pops h' x' rest' -> x = x' /\ rest ≡ₚ rest'.
Proof.
  intros Hh [Hp Hleast] [Hp' Hleast'].
  assert (Hx : x = x').
  { assert (Hin : x ∈ x' :: rest').
    { rewrite <- Hp', <- Hh, Hp. left. }
    assert (Hin' : x' ∈ x :: rest).
    { rewrite <- Hp, Hh, Hp'. left. }
    apply elem_of_cons in Hin as [?|Hin]; [done|].
    apply elem_of_cons in Hin' as [?|Hin']; [done|].
    rewrite Forall_forall in Hleast, Hleast'.
    apply entry_leb_antisym; auto. }
  subst x'. split; [done|].
  apply (Permutation_cons_inv (a := x)). by rewrite <- Hp, Hh, Hp'.
Qed.

Lemma pops_sorted x rest : queue_sorted (x :: rest) -> pops (x :: rest) x rest.
Proof.
  intros Hs. split; [done|].
  apply Forall_forall.
  by destruct (heappop_least (x :: rest) x rest Hs eq_refl).
Qed.

Lemma same_state_refl st : same_state st st.
Proof. by repeat split. Qed.

Lemma same_state_trans st1 st2 st3 :
  same_state st1 st2 -> same_state st2 st3 -> same_state st1 st3.
Proof.
  intros (HD & HP & Hf) (HD' & HP' & Hf'). repeat split.
  - by rewrite HD. 
  - by rewrite HP.
  - by rewrite Hf.
Qed.

Lemma same_state_sym st1 st2 : same_state st1 st2 -> same_state st2 st1.
Proof. intros (HD & HP & Hf). by repeat split. Qed.

(** The [for] loop does the same to the same tables, whatever the
    arrangement of the queue. *)
Lemma relax_same d u st st' it :
  same_state st st' ->
  match relax d u st it, relax d u st' it with
  | Returns a, Returns b => same_state a b
  | Raises e, Raises e' => e = e'
  | _, _ => False
  end.
Proof.
  intros (HD & HP & Hf). destruct it as [x w]. unfold relax.
  rewrite <- HD, <- HP.
  destruct (distancias st !! x) as [dx|]; [|done].
  destruct (dist_ltb (Fin (d + w)) dx); [|done].
  destruct (caminhos st !! u) as [p|]; [|done].
  split; [done|]. split; [done|]. simpl.
  by rewrite !heappush_perm, Hf.
Qed.

Lemma for_items_same d u st st' items :
  same_state st st' ->
  match for_items d u st items, for_items d u st' items with
  | Returns a, Returns b => same_state a b
  | Raises e, Raises e' => e = e'
  | _, _ => False
  end.
Proof.
  revert st st'. induction items as [|it items IH]; intros st st' Hs; simpl.
  - done.
  - pose proof (relax_same d u st st' it Hs) as Hr.
    destruct (relax d u st it) as [a|e|], (relax d u st' it) as [b|e'|];
      try done.
    by apply IH.
Qed.

Lemma body_same g st st' x rest rest' :
  same_state st st' -> rest ≡ₚ rest' ->
  match body g st x rest, body g st' x rest' with
  | Returns a, Returns b => same_state a b
  | Raises e, Raises e' => e = e'
  | _, _ => False
  end.
Proof.
  intros (HD & HP & Hf) Hrest. destruct x as [d u]. unfold body.
  rewrite <- HD, <- HP.
  destruct (distancias st !! u) as [dv|]; [|done].
  destruct (dist_gtb (Fin d) dv); [done|].
  destruct (dict_get g u) as [a|]; [|done].
  by apply for_items_same.
Qed.

Lemma runs_same g st st' r r' :
  same_state st st' -> runs g st r -> runs g st' r' -> r = r'.
Proof.
  intros Hs Hr. revert st' r' Hs.
  induction Hr as [st Hf|st x rest e Hp Hb|st x rest st1 st2 r Hp Hb H12 Hr IH];
    intros st' r' Hs Hr'.
  - destruct Hs as (HD & HP & Hq). rewrite Hf in Hq.
    apply Permutation_nil in Hq.
    destruct Hr' as [st' _|st' x' rest' e' [Hp' _] _
                    |st' x' rest' st1' st2' r' [Hp' _] _ _ _].
    + by rewrite HD, HP.
    + rewrite Hq in Hp'. by apply Permutation_nil_cons in Hp'.
    + rewrite Hq in Hp'. by apply Permutation_nil_cons in Hp'.
  - pose proof Hs as (_ & _ & Hq).
    destruct Hr' as [st' Hf'|st' x' rest' e' Hp' Hb'
                    |st' x' rest' st1' st2' r' Hp' Hb' _ _].
    + destruct Hp as [Hp _]. rewrite Hf' in Hq. rewrite Hp in Hq.
      symmetry in Hq. by apply Permutation_nil_cons in Hq.
    + destruct (pops_agree _ _ _ _ _ _ Hq Hp Hp') as [<- Hrest].
      pose proof (body_same g st st' x rest rest' Hs Hrest) as Hsame.
      rewrite Hb, Hb' in Hsame. by rewrite Hsame.
    + destruct (pops_agree _ _ _ _ _ _ Hq Hp Hp') as [<- Hrest].
      pose proof (body_same g st st' x rest rest' Hs Hrest) as Hsame.
      by rewrite Hb, Hb' in Hsame.
  - pose proof Hs as (_ & _ & Hq).
    destruct Hr' as [st' Hf'|st' x' rest' e' Hp' Hb'
                    |st' x' rest' st1' st2' r' Hp' Hb' H12' Hr'].
    + destruct Hp as [Hp _]. rewrite Hf' in Hq. rewrite Hp in Hq.
      symmetry in Hq. by apply Permutation_nil_cons in Hq.
    + destruct (pops_agree _ _ _ _ _ _ Hq Hp Hp') as [<- Hrest].
      pose proof (body_same g st st' x rest rest' Hs Hrest) as Hsame.
      by rewrite Hb, Hb' in Hsame.
    + destruct (pops_agree _ _ _ _ _ _ Hq Hp Hp') as [<- Hrest].
      pose proof (body_same g st st' x rest rest' Hs Hrest) as Hsame.
      rewrite Hb, Hb' in Hsame.
      apply (IH st2'); [|done].
      eapply same_state_trans; [by apply same_state_sym|].
      by eapply same_state_trans.
Qed.

(** What the function computes is one of the runs. *)
Lemma loop_runs g fuel st r :
  queue_sorted (fila_prioridade st) ->
  loop fuel g st = r -> r <> OutOfFuel -> runs g st r.
Proof.
  revert st. induction fuel as [|fuel IH]; intros st Hs Hl Hr.
  - destruct (fila_prioridade st) as [|x rest] eqn:Hf.
    + simpl in Hl. rewrite Hf in Hl. simpl in Hl. subst r. by constructor.
    + simpl in Hl. rewrite Hf in Hl. simpl in Hl. by subst r.
  - assert (Hcase : fila_prioridade st = [] \/
                    exists x rest, fila_prioridade st = x :: rest).
    { destruct (fila_prioridade st) as [|x rest]; eauto. }
    destruct Hcase as [Hf|(x & rest & Hf)].
    + simpl in Hl. rewrite Hf in Hl. simpl in Hl. subst r. by constructor.
    + rewrite (loop_step fuel g st x rest Hf) in Hl.
      assert (Hp : pops (fila_prioridade st) x rest).
      { rewrite Hf. apply pops_sorted. by rewrite <- Hf. }
      destruct (body g st x rest) as [st1|e|] eqn:Hb.
      * eapply runs_iter; [exact Hp|exact Hb|apply same_state_refl|].
        apply IH; [by eapply body_sorted|done|done].
      * subst r. by eapply runs_raise.
      * by subst r.
Qed.

Lemma runs_return_eq g st T :
  fila_prioridade st = [] -> T = (distancias st, caminhos st) ->
  runs g st (Returns T).
Proof. intros Hf ->. by constructor. Qed.

(** C6.  Two calls with the same graph and the same source end alike,
    with the same distance table and the same path table (or the same
    error), however [heapq] arranges its list in each of them: the order of
    the tuples [(distancia, vertice)] leaves it no choice of the entry to
    hand out.  What [dijkstra] computes is one of these runs. *)
Theorem dijkstra_deterministic (g : graph) (s : vertex) :
  (forall fuel r, dijkstra fuel g s = r -> r <> OutOfFuel ->
     runs g (init g s) r) /\
  (forall r r', runs g (init g s) r -> runs g (init g s) r' -> r = r').
Proof.
  split.
  - intros fuel r Hr Hne. unfold dijkstra in Hr.
    eapply loop_runs; [apply init_sorted|exact Hr|exact Hne].
  - intros r r'. apply runs_same, same_state_refl.
Qed.

Lemma dijkstra_deterministic_witness :
  Returns
    (list_to_map [("A", Fin 0); ("B", Fin 2); ("C", Fin 1)] : gmap string dist,
     list_to_map [("A", ["A"]); ("B", ["A"; "B"]); ("C", ["A"; "C"])]
       : gmap string (list vertex))
  = dijkstra 10 grafo_dois "A".
Proof.
  refine (proj2 (dijkstra_deterministic grafo_dois "A") _ _ _ _).
  - (* a run that keeps the queue in the opposite order *)
    eapply (runs_iter grafo_dois _ (0, "A") []
              _ {| fila_prioridade := [(2, "B"); (1, "C")] |}).
    + split; [reflexivity|constructor].
    + vm_compute. reflexivity.
    + split; [reflexivity|]. split; [reflexivity|]. apply Permutation_swap.
    + eapply (runs_iter grafo_dois _ (1, "C") [(2, "B")]
                _ {| fila_prioridade := [(2, "B")] |}).
      * split; [apply Permutation_swap|]. repeat constructor.
      * vm_compute. reflexivity.
      * split; [reflexivity|]. split; reflexivity.
      * eapply (runs_iter grafo_dois _ (2, "B") []
                  _ {| fila_prioridade := [] |}).
        -- split; [reflexivity|constructor].
        -- vm_compute. reflexivity.
        -- split; [reflexivity|]. split; reflexivity.
        -- apply runs_return_eq; [reflexivity|]. vm_compute. reflexivity.
  - refine (proj1 (dijkstra_deterministic grafo_dois "A") 10%nat _ _ _).
    + reflexivity.
    + vm_compute. discriminate.
Defined.

(** C7.  For a graph with non-negative weights that has the source among
    its keys, and every vertex: in the graph without one edge the returned
    distance is not smaller, and in the graph with one more edge (of
    non-negative weight, between vertices not yet joined by one) it is not
    larger.  The edited graphs return tables whenever the adjacency
    mappings mention keys only. *)
Theorem dijkstra_monotone_edges (g : graph) (s u x : vertex) (w : Z) D P :
  nonneg g -> s ∈ dict_keys g -> solve_returns g s (D, P) ->
  (forall D' P' v delta delta',
     solve_returns (remove_edge g u x) s (D', P') ->
     D !! v = Some delta -> D' !! v = Some delta' -> dist_le delta delta') /\
  (forall D' P' v delta delta',
     0 <= w -> peso g u x = None ->
     solve_returns (add_edge g u x w) s (D', P') ->
     D !! v = Some delta -> D' !! v = Some delta' -> dist_le delta' delta) /\
  (closed g -> exists D' P', solve_returns (remove_edge g u x) s (D', P')) /\
  (closed g -> x ∈ dict_keys g -> 0 <= w -> peso g u x = None ->
   exists D' P', solve_returns (add_edge g u x w) s (D', P')).
Proof.
  intros Hnn%nonneg_nonneg_edges Hs Hret.
  assert (Hnn_rm : nonneg_edges (remove_edge g u x)).
  { intros a b c He%edge_remove. by eapply Hnn. }
  assert (Hnn_add : 0 <= w -> peso g u x = None ->
                    nonneg_edges (add_edge g u x w)).
  { intros Hw Hp a b c He. apply edge_add_inv in He; [|done].
    destruct He as [He|(_ & _ & ->)]; [by eapply Hnn|done]. }
  split; [|split; [|split]].
  - intros D' P' v delta delta' Hret' Hv Hv'.
    eapply (solve_monotone (remove_edge g u x) g); eauto using edge_remove.
  - intros D' P' v delta delta' Hw Hp Hret' Hv Hv'.
    eapply (solve_monotone g (add_edge g u x w)); eauto using edge_add.
  - intros Hcl%closed_closed_edges.
    destruct (solve_exists (remove_edge g u x) s) as [[D' P'] H]; eauto.
    + intros a b c He%edge_remove. apply dict_keys_remove_edge.
      by eapply Hcl.
    + by apply dict_keys_remove_edge.
  - intros Hcl%closed_closed_edges Hx Hw Hp.
    destruct (solve_exists (add_edge g u x w) s) as [[D' P'] H]; eauto.
    + intros a b c He. apply dict_keys_add_edge. left.
      apply edge_add_inv in He; [|done].
      destruct He as [He|(_ & -> & _)]; [by eapply Hcl|done].
    + apply dict_keys_add_edge. by left.
Qed.

Lemma dijkstra_monotone_edges_witness :
  dist_le (Fin 3) (Fin 6) /\ dist_le (Fin 2) (Fin 4).
Proof.
  pose proof (dijkstra_monotone_edges grafo_exemplo "A" "D" "B" 0
                distancias_exemplo caminhos_exemplo) as Hrm.
  pose proof (dijkstra_monotone_edges grafo_exemplo "A" "A" "E" 2
                distancias_exemplo caminhos_exemplo) as Hadd.
  split.
  - refine (proj1 (Hrm _ _ _)
              (fst (returned (dijkstra 100 (remove_edge grafo_exemplo "D" "B") "A")))
              (snd (returned (dijkstra 100 (remove_edge grafo_exemplo "D" "B") "A")))
              "B" (Fin 3) (Fin 6) _ _ _).
    + unfold nonneg. compute_done.
    + compute_done.
    + exists 100%nat. vm_compute. reflexivity.
    + exists 100%nat. vm_compute. reflexivity.
    + vm_compute. reflexivity.
    + vm_compute. reflexivity.
  - refine (proj1 (proj2 (Hadd _ _ _))
              (fst (returned (dijkstra 100 (add_edge grafo_exemplo "A" "E" 2) "A")))
              (snd (returned (dijkstra 100 (add_edge grafo_exemplo "A" "E" 2) "A")))
              "E" (Fin 4) (Fin 2) _ _ _ _ _).
    + unfold nonneg. compute_done.
    + compute_done.
    + exists 100%nat. vm_compute. reflexivity.
    + lia.
    + vm_compute. reflexivity.
    + exists 100%nat. vm_compute. reflexivity.
    + vm_compute. reflexivity.
    + vm_compute. reflexivity.
Defined.

(** C8, as the program behaves.  A call whose source is not a key of the
    graph raises [KeyError] at [grafo[vertice_atual]] in the first
    iteration; a call whose source has a neighbour that is not a key raises
    [KeyError] at [distancias[vizinho]] in the first iteration; a call on a
    graph that has the source among its keys and whose adjacency mappings
    mention keys only raises no error. *)
Theorem dijkstra_key_errors (g : graph) (s : vertex) :
  (~ s ∈ dict_keys g ->
   forall fuel, dijkstra (S fuel) g s = Raises (KeyError s)) /\
  (forall a, dict_get g s = Some a ->
   (exists x w, (x, w) ∈ a /\ ~ x ∈ dict_keys g) ->
   forall fuel, exists k,
     ~ k ∈ dict_keys g /\ dijkstra (S fuel) g s = Raises (KeyError k)) /\
  (s ∈ dict_keys g -> closed g ->
   forall fuel e, dijkstra fuel g s <> Raises e).
Proof.
  split; [|split].
  - intros Hs fuel. by apply dijkstra_unknown_source.
  - intros a Ha Hbad fuel. by eapply dijkstra_unknown_neighbour.
  - intros Hs Hcl%closed_closed_edges fuel e. unfold dijkstra.
    apply loop_dom; [done|]. by apply init_dom.
Qed.

Lemma dijkstra_key_errors_witness :
  dijkstra 1 grafo_pendente "B" = Raises (KeyError "B") /\
  (exists k, ~ k ∈ dict_keys grafo_pendente /\
             dijkstra 1 grafo_pendente "A" = Raises (KeyError k)) /\
  dijkstra 100 grafo_exemplo "A" <> Raises (KeyError "A").
Proof.
  split; [|split].
  - refine (proj1 (dijkstra_key_errors grafo_pendente "B") _ 0%nat).
    compute_done.
  - refine (proj1 (proj2 (dijkstra_key_errors grafo_pendente "A"))
              [("B", 1)] _ _ 0%nat).
    + reflexivity.
    + exists "B", 1. split; compute_done.
  - refine (proj2 (proj2 (dijkstra_key_errors grafo_exemplo "A")) _ _
              100%nat (KeyError "A")).
    + compute_done.
    + unfold closed. compute_done.
Defined.

(** C8, as the specification words it, fails: with a source that is not a
    key, and with a neighbour of the source that is not a key, the call
    raises [KeyError] and returns no tables. *)
Lemma dijkstra_raises_key_error :
  dijkstra 1 grafo_pendente "B" = Raises (KeyError "B") /\
  dijkstra 100 grafo_pendente "B" = Raises (KeyError "B") /\
  dijkstra 1 grafo_pendente "A" = Raises (KeyError "B") /\
  dijkstra 100 grafo_pendente "A" = Raises (KeyError "B").
Proof. repeat split; vm_compute; reflexivity. Qed.

(** C9.  For a graph with non-negative weights that has the source among
    its keys and whose adjacency mappings mention keys only, the [while]
    loop ends after finitely many iterations and the call returns. *)
Theorem dijkstra_terminates (g : graph) (s : vertex) :
  nonneg g -> closed g -> s ∈ dict_keys g ->
  exists fuel D P, forall k, dijkstra (fuel + k) g s = Returns (D, P).
Proof.
  intros Hnn%nonneg_nonneg_edges Hcl%closed_closed_edges Hs.
  destruct (dijkstra_total g s Hnn Hcl Hs) as (fuel & [D P] & H).
  exists fuel, D, P. intros k. unfold dijkstra in *.
  by apply loop_fuel_mono.
Qed.

Lemma dijkstra_terminates_witness :
  exists fuel D P,
    forall k, dijkstra (fuel + k) grafo_exemplo "A" = Returns (D, P).
Proof.
  refine (dijkstra_terminates grafo_exemplo "A" _ _ _).
  - unfold nonneg. compute_done.
  - unfold closed. compute_done.
  - compute_done.
Defined.

(** C10.  For a graph with non-negative weights that has the source among
    its keys, at every vertex whose returned distance is finite the returned
    path is not empty, starts at the source, ends at the vertex, and every
    consecutive pair of its vertices is an edge of the graph. *)
Theorem dijkstra_path_shape (g : graph) (s : vertex) :
  nonneg g -> s ∈ dict_keys g ->
  (closed g -> exists D P, solve_returns g s (D, P)) /\
  (forall D P, solve_returns g s (D, P) ->
     forall v d, D !! v = Some (Fin d) ->
       exists l, P !! v = Some l /\ l <> [] /\
         head l = Some s /\ last l = Some v /\ chain g l).
Proof.
  intros Hnn%nonneg_nonneg_edges Hs. split.
  - intros Hcl%closed_closed_edges.
    destruct (solve_exists g s Hnn Hcl Hs) as [[D P] H]. eauto.
  - intros D P Hret v d Hv.
    destruct (inv_path _ _ _ _ (solve_final _ _ _ _ Hnn Hret) v d Hv)
      as (l & Hl & Hw).
    exists l. destruct (walk_ends _ _ _ _ _ Hw) as [Hh Ht].
    split; [done|]. split; [by destruct l|].
    split; [done|]. split; [done|]. by eapply walk_chain.
Qed.

Lemma dijkstra_path_shape_witness :
  exists l, caminhos_exemplo !! "I" = Some l /\ l <> [] /\
    head l = Some "A" /\ last l = Some "I" /\ chain grafo_exemplo l.
Proof.
  refine (proj2 (dijkstra_path_shape grafo_exemplo "A" _ _)
            distancias_exemplo caminhos_exemplo _ "I" 3 _).
  - unfold nonneg. compute_done.
  - compute_done.
  - exists 100%nat. vm_compute. reflexivity.
  - vm_compute. reflexivity.
Defined.


(** * Further properties of the code *)

(** ** The key sets of the returned tables *)

Lemma init_keys_exact g s : keys_exact g s (init g s).
Proof.
  intros v. simpl. rewrite !lookup_insert.
  destruct (decide (s = v)) as [->|Hne]; [split; split; eauto|].
  rewrite !lookup_fresh_table.
  destruct (decide _) as [Hin|Hin]; split; split; eauto;
    try (by intros [? ?]); by intros [?|?].
Qed.

Lemma relax_keys_exact g s d u st it st' :
  keys_exact g s st -> relax d u st it = Returns st' -> keys_exact g s st'.
Proof.
  intros HK. destruct it as [x w]. unfold relax.
  destruct (distancias st !! x) as [dx|] eqn:Hx; [|done].
  destruct (dist_ltb (Fin (d + w)) dx); [|by intros [= <-]].
  destruct (caminhos st !! u) as [p|]; [|done]. intros [= <-] v. simpl.
  rewrite !lookup_insert. destruct (decide (x = v)) as [<-|]; [|apply HK].
  destruct (HK x) as [HD HP]. split; (split; [intros _|eauto]);
    apply HD; eauto.
Qed.

Lemma for_items_keys_exact g s d u st items st' :
  keys_exact g s st -> for_items d u st items = Returns st' ->
  keys_exact g s st'.
Proof.
  revert st. induction items as [|it items IH]; intros st HK; simpl.
  - by intros [= <-].
  - destruct (relax d u st it) as [st1| |] eqn:Hr; try done.
    apply IH. by apply (relax_keys_exact g s d u st it).
Qed.

Lemma body_keys_exact g s st x rest st' :
  keys_exact g s st -> body g st x rest = Returns st' -> keys_exact g s st'.
Proof.
  intros HK. destruct x as [d u]. unfold body.
  destruct (distancias st !! u) as [dv|]; [|done].
  destruct (dist_gtb (Fin d) dv); [by intros [= <-]|].
  destruct (dict_get g u) as [a|]; [|done].
  by apply for_items_keys_exact.
Qed.

Lemma loop_keys_exact g s fuel st D P :
  keys_exact g s st -> loop fuel g st = Returns (D, P) ->
  keys_exact g s {| distancias := D; caminhos := P; fila_prioridade := [] |}.
Proof.
  revert st. induction fuel as [|fuel IH]; intros st HK; simpl.
  - destruct st as [D0 P0 [|x rest]]; simpl; [|done]. by intros [= <- <-].
  - destruct st as [D0 P0 [|x rest]]; simpl; [by intros [= <- <-]|].
    destruct (body _ _ _ _) as [st'| |] eqn:Hb; try done.
    apply IH. eapply (body_keys_exact g s); [exact HK|exact Hb].
Qed.

Lemma solve_source_key g s T : solve_returns g s T -> s ∈ dict_keys g.
Proof.
  intros [fuel Hrun]. destruct (decide (s ∈ dict_keys g)) as [|Hs]; [done|].
  destruct fuel as [|fuel]; [done|].
  by rewrite dijkstra_unknown_source in Hrun.
Qed.

Lemma solve_keys g s D P v :
  solve_returns g s (D, P) ->
  (is_Some (D !! v) <-> v ∈ dict_keys g) /\
  (is_Some (P !! v) <-> v ∈ dict_keys g).
Proof.
  intros Hret. pose proof (solve_source_key _ _ _ Hret) as Hs.
  destruct Hret as [fuel Hrun].
  destruct (loop_keys_exact g s fuel _ D P (init_keys_exact g s) Hrun v)
    as [HD HP]. simpl in HD, HP.
  split; [rewrite HD|rewrite HP]; (split; [intros [?| ->]|]; eauto).
Qed.

(** X1.  Whatever the weights, when the call returns, the source is a key
    of the graph and both returned tables have exactly the keys of the
    graph: the lookup [caminhos[vertice]] of line 106 never fails. *)
Theorem returned_tables_keys (g : graph) (s : vertex) D P :
  solve_returns g s (D, P) ->
  s ∈ dict_keys g /\
  forall v, (is_Some (D !! v) <-> v ∈ dict_keys g) /\
            (is_Some (P !! v) <-> v ∈ dict_keys g).
Proof.
  intros Hret. split; [by eapply solve_source_key|].
  intros v. by apply (solve_keys g s).
Qed.

Lemma returned_tables_keys_witness :
  "A" ∈ dict_keys grafo_isolado /\
  forall v, (is_Some (distancias_isolado !! v) <-> v ∈ dict_keys grafo_isolado) /\
            (is_Some (caminhos_isolado !! v) <-> v ∈ dict_keys grafo_isolado).
Proof.
  refine (returned_tables_keys grafo_isolado "A"
            distancias_isolado caminhos_isolado _).
  exists 10%nat. vm_compute. reflexivity.
Defined.

(** ** The returned paths *)

Lemma walk_nonempty g s v l d : walk g s v l d -> l <> [].
Proof. intros [Hh _]%walk_ends. by destruct l. Qed.

(** Paths compose. *)
Lemma walk_app g s y v l l2 d1 d2 :
  walk g s y l d1 -> walk g y v l2 d2 -> walk g s v (l ++ tail l2) (d1 + d2).
Proof.
  intros H1 H2. induction H2 as [|u x w l2 d2 H2 IH He].
  - simpl. by rewrite app_nil_r, Z.add_0_r.
  - pose proof (walk_nonempty _ _ _ _ _ H2) as Hne.
    replace (l ++ tail (l2 ++ [x])) with ((l ++ tail l2) ++ [x]).
    + rewrite Z.add_assoc. by econstructor.
    + rewrite <- app_assoc. f_equal. by destruct l2.
Qed.

(** A path splits at each of its vertices. *)
Lemma walk_split g s v l1 y l2 d :
  walk g s v (l1 ++ y :: l2) d ->
  exists d1 d2, walk g s y (l1 ++ [y]) d1 /\ walk g y v (y :: l2) d2 /\
                d = d1 + d2.
Proof.
  remember (l1 ++ y :: l2) as L eqn:HL. intros Hw. revert l2 HL.
  induction Hw as [|u x w l d Hw IH He]; intros l2 HL.
  - destruct l1 as [|a l1]; simpl in HL.
    + injection HL as <- <-. exists 0, 0. repeat split; constructor.
    + injection HL as _ HL. by destruct l1.
  - destruct l2 as [|z l2 _] using rev_ind.
    + apply app_inj_tail in HL as [-> ->].
      exists (d + w), 0. split; [by econstructor|]. split; [constructor|lia].
    + change (l ++ [x] = l1 ++ (y :: l2) ++ [z]) in HL.
      rewrite app_assoc in HL. apply app_inj_tail in HL as [-> ->].
      destruct (IH l2 eq_refl) as (d1 & d2 & H1 & H2 & ->).
      exists d1, (d2 + w). split; [done|]. split; [|lia].
      change (walk g y z ((y :: l2) ++ [z]) (d2 + w)). by econstructor.
Qed.

(** X2.  For non-negative weights, no returned path passes a vertex
    twice. *)
Theorem returned_paths_simple (g : graph) (s : vertex) D P :
  nonneg g -> solve_returns g s (D, P) ->
  forall v l, P !! v = Some l -> NoDup l.
Proof.
  intros Hnn%nonneg_nonneg_edges Hret v l Hl.
  pose proof (solve_final _ _ _ _ Hnn Hret) as HI.
  destruct (solve_keys g s D P v Hret) as [HD HP].
  assert (is_Some (D !! v)) as [[d|] Hd] by (apply HD, HP; eauto).
  - by apply (inv_simple _ _ _ _ HI v d l).
  - apply (inv_inf _ _ _ _ HI) in Hd. simpl in Hd.
    rewrite Hl in Hd. injection Hd as ->. constructor.
Qed.

Lemma returned_paths_simple_witness : NoDup ["A"; "D"; "F"; "E"].
Proof.
  refine (returned_paths_simple grafo_exemplo "A"
            distancias_exemplo caminhos_exemplo _ _ "E" _ _).
  - unfold nonneg. compute_done.
  - exists 100%nat. vm_compute. reflexivity.
  - vm_compute. reflexivity.
Defined.

Lemma solve_prefix g s D P v l1 y l2 :
  nonneg_edges g -> solve_returns g s (D, P) ->
  P !! v = Some (l1 ++ y :: l2) ->
  exists dy, D !! y = Some (Fin dy) /\ walk g s y (l1 ++ [y]) dy.
Proof.
  intros Hnn Hret Hl.
  pose proof (solve_final _ _ _ _ Hnn Hret) as HI.
  destruct (solve_keys g s D P v Hret) as [HD HP].
  assert (is_Some (D !! v)) as [[d|] Hd] by (apply HD, HP; eauto).
  - destruct (inv_path _ _ _ _ HI v d Hd) as (l & Hl' & Hw). simpl in Hl'.
    rewrite Hl in Hl'. injection Hl' as <-.
    destruct (walk_split _ _ _ _ _ _ _ Hw) as (d1 & d2 & H1 & H2 & ->).
    destruct (final_lower g s D P y _ _ HI H1) as (dy & Hy & Hle).
    destruct (inv_path _ _ _ _ HI y dy Hy) as (ly & _ & Hwy).
    pose proof (walk_app _ _ _ _ _ _ _ _ Hwy H2) as Hw'.
    destruct (final_lower g s D P v _ _ HI Hw') as (dv & Hv & Hle').
    rewrite Hd in Hv. injection Hv as <-.
    exists dy. split; [done|]. by replace dy with d1 by lia.
  - apply (inv_inf _ _ _ _ HI) in Hd. simpl in Hd.
    rewrite Hl in Hd. by destruct l1.
Qed.

(** X3.  For non-negative weights, every returned path is shortest all
    along: the part of the path of [v] up to any of its vertices [y] is a
    path from the source to [y] whose weight is the returned distance of
    [y]. *)
Theorem returned_paths_prefix (g : graph) (s : vertex) D P :
  nonneg g -> solve_returns g s (D, P) ->
  forall v l1 y l2, P !! v = Some (l1 ++ y :: l2) ->
    exists dy, D !! y = Some (Fin dy) /\ walk g s y (l1 ++ [y]) dy.
Proof.
  intros Hnn%nonneg_nonneg_edges Hret v l1 y l2 Hl. by eapply solve_prefix.
Qed.

Lemma returned_paths_prefix_witness :
  exists dy, distancias_exemplo !! "C" = Some (Fin dy) /\
             walk grafo_exemplo "A" "C" (["A"; "D"] ++ ["C"]) dy.
Proof.
  refine (returned_paths_prefix grafo_exemplo "A"
            distancias_exemplo caminhos_exemplo _ _ "I" ["A"; "D"] "C" ["I"] _).
  - unfold nonneg. compute_done.
  - exists 100%nat. vm_compute. reflexivity.
  - vm_compute. reflexivity.
Defined.

(** ** The order of the dicts *)

Lemma graph_subb_edge g g' u x w :
  graph_subb g g' = true -> edge g u x w -> edge g' u x w.
Proof.
  unfold graph_subb. rewrite forallb_forall.
  intros Hsub (a & Ha & Hin). apply dict_get_elem in Ha.
  specialize (Hsub (u, a)). simpl in Hsub.
  rewrite <- list_elem_of_In in Hsub. specialize (Hsub Ha).
  destruct (dict_get g' u) as [a'|] eqn:Ha'; [|done].
  exists a'. split; [done|]. rewrite forallb_forall in Hsub.
  specialize (Hsub (x, w)). rewrite <- list_elem_of_In in Hsub.
  specialize (Hsub Hin). by apply bool_decide_eq_true_1 in Hsub.
Qed.

Lemma graph_subb_keys (g g' : graph) v :
  graph_subb g g' = true -> v ∈ dict_keys g -> v ∈ dict_keys g'.
Proof.
  unfold graph_subb. rewrite forallb_forall.
  intros Hsub [a Ha]%dict_get_keys. apply dict_get_elem in Ha.
  specialize (Hsub (v, a)). simpl in Hsub.
  rewrite <- list_elem_of_In in Hsub. specialize (Hsub Ha).
  apply dict_get_keys. by destruct (dict_get g' v).
Qed.

Lemma shortest_unique g s v delta delta' :
  shortest g s v delta -> shortest g s v delta' -> delta = delta'.
Proof.
  destruct delta as [d|], delta' as [d'|]; simpl; try done.
  - intros [(l & Hl & _) H] [(l' & Hl' & _) H'].
    f_equal. pose proof (H _ _ Hl'). pose proof (H' _ _ Hl). lia.
  - intros [(l & Hl & _) _] H'. by destruct (H' _ _ Hl).
  - intros H [(l & Hl & _) _]. by destruct (H _ _ Hl).
Qed.

Lemma shortest_subgraph g g' s v delta :
  (forall a b c, edge g a b c -> edge g' a b c) ->
  (forall a b c, edge g' a b c -> edge g a b c) ->
  shortest g s v delta -> shortest g' s v delta.
Proof.
  intros H12 H21. destruct delta as [d|]; simpl.
  - intros [(l & Hl & Hnd) H]. split.
    + exists l. split; [|done]. by eapply walk_subgraph.
    + intros l' d' Hw. eapply H. by eapply walk_subgraph.
  - intros H l d Hw. eapply H. by eapply walk_subgraph.
Qed.

(** X4.  For non-negative weights the returned distance table depends on
    the keys and the weighted edges only, not on the order in which the
    dicts list them: two graphs whose keys have the same items, in whatever
    order, give the same table. *)
Theorem distances_order_independent (g g' : graph) (s : vertex) D P D' P' :
  nonneg g -> nonneg g' ->
  graph_subb g g' = true -> graph_subb g' g = true ->
  solve_returns g s (D, P) -> solve_returns g' s (D', P') ->
  D = D'.
Proof.
  intros Hnn%nonneg_nonneg_edges Hnn'%nonneg_nonneg_edges H12 H21 Hret Hret'.
  apply map_eq. intros v.
  destruct (solve_keys g s D P v Hret) as [HD _].
  destruct (solve_keys g' s D' P' v Hret') as [HD' _].
  destruct (decide (v ∈ dict_keys g)) as [Hv|Hv].
  - pose proof (graph_subb_keys _ _ _ H12 Hv) as Hv'.
    destruct (solve_shortest g s D P v Hnn Hret Hv) as (delta & -> & Hsh).
    destruct (solve_shortest g' s D' P' v Hnn' Hret' Hv') as (delta' & -> & Hsh').
    f_equal. apply (shortest_unique g' s v); [|done].
    eapply shortest_subgraph; [| |exact Hsh]; intros a b c;
      by apply graph_subb_edge.
  - assert (Hv' : ~ v ∈ dict_keys g').
    { intros Hv'. by apply Hv, (graph_subb_keys g' g). }
    rewrite <- HD in Hv. rewrite <- HD' in Hv'.
    destruct (D !! v), (D' !! v); try done; exfalso; eauto.
Qed.

Lemma distances_order_independent_witness :
  distancias_exemplo = fst (returned (dijkstra 100 grafo_exemplo_rev "A")).
Proof.
  refine (distances_order_independent grafo_exemplo grafo_exemplo_rev "A"
            distancias_exemplo caminhos_exemplo _
            (snd (returned (dijkstra 100 grafo_exemplo_rev "A")))
            _ _ _ _ _ _).
  - unfold nonneg. compute_done.
  - unfold nonneg. compute_done.
  - vm_compute. reflexivity.
  - vm_compute. reflexivity.
  - exists 100%nat. vm_compute. reflexivity.
  - exists 100%nat. vm_compute. reflexivity.
Defined.

(** ** Weights of any sign *)

Section AnyWeights.
Variable g : graph.
Variable s : vertex.

Lemma init_winv : winv g s None (init g s).
Proof.
  split; simpl.
  - exists 0. by rewrite lookup_insert_eq.
  - intros v d. rewrite lookup_insert.
    destruct (decide (s = v)) as [->|Hne].
    + intros [= <-]. exists [v]. constructor.
    + rewrite lookup_fresh_table. destruct (decide _); intros ?; simplify_eq.
  - intros d v Hin. apply list_elem_of_singleton in Hin as [= -> ->].
    exists 0. by rewrite lookup_insert_eq.
  - intros v d. rewrite lookup_insert.
    destruct (decide (s = v)) as [->|Hne].
    + intros [= <-]. left. left.
    + rewrite lookup_fresh_table. destruct (decide _); intros ?; simplify_eq.
Qed.

Lemma relax_winv d u lu a st it st' :
  winv g s (Some (d, u)) st -> walk g s u lu d ->
  dict_get g u = Some a -> it ∈ a ->
  relax d u st it = Returns st' ->
  winv g s (Some (d, u)) st' /\
  (exists dx, distancias st' !! fst it = Some (Fin dx) /\ dx <= d + snd it) /\
  table_le (distancias st) (distancias st').
Proof.
  intros HI Hwalk Ha Hit. destruct it as [x w]. unfold relax.
  assert (He : edge g u x w) by (exists a; done).
  destruct (distancias st !! x) as [dx|] eqn:Hx; [|done].
  destruct (dist_ltb (Fin (d + w)) dx) eqn:Hlt.
  - destruct (caminhos st !! u) as [p|]; [|done]. intros [= <-]. simpl.
    assert (Hle : table_le (distancias st) (<[x:=Fin (d + w)]> (distancias st))).
    { intros v dv Hv. rewrite lookup_insert.
      destruct (decide (x = v)) as [->|Hne].
      - rewrite Hv in Hx. injection Hx as <-. simpl in Hlt.
        exists (d + w). split; [done|lia].
      - exists dv. split; [done|lia]. }
    split; [|split; [|done]].
    + split; simpl.
      * destruct (w_src _ _ _ _ HI) as (d0 & Hs & ?).
        destruct (Hle _ _ Hs) as (d0' & Hs' & ?). exists d0'. split; [done|lia].
      * intros v d'. rewrite lookup_insert.
        destruct (decide (x = v)) as [->|Hne]; [|apply (w_walk _ _ _ _ HI)].
        intros [= <-]. exists (lu ++ [v]). by econstructor.
      * intros d' v Hin. apply elem_of_heappush in Hin as [[= -> ->]|Hin].
        -- exists (d + w). rewrite lookup_insert_eq. split; [done|lia].
        -- destruct (w_fila _ _ _ _ HI _ _ Hin) as (dv & Hv & ?).
           destruct (Hle _ _ Hv) as (dv' & Hv' & ?).
           exists dv'. split; [done|lia].
      * intros v d'. rewrite lookup_insert.
        destruct (decide (x = v)) as [->|Hne].
        -- intros [= <-]. left. apply elem_of_heappush. by left.
        -- intros Hv. destruct (w_open _ _ _ _ HI _ _ Hv) as [Hin|[Hr|Hc]].
           ++ left. apply elem_of_heappush. by right.
           ++ right. left. by eapply relaxed_mono.
           ++ right. by right.
    + exists (d + w). rewrite lookup_insert_eq. split; [done|lia].
  - intros [= <-]. split; [done|]. split; [|apply table_le_refl].
    simpl. rewrite Hx. destruct dx as [dx|]; [|done]. simpl in Hlt.
    exists dx. split; [done|lia].
Qed.

Lemma for_items_winv d u lu a items st st' :
  winv g s (Some (d, u)) st -> walk g s u lu d ->
  dict_get g u = Some a -> (forall it, it ∈ items -> it ∈ a) ->
  for_items d u st items = Returns st' ->
  winv g s (Some (d, u)) st' /\
  (forall x w, (x, w) ∈ items ->
     exists dx, distancias st' !! x = Some (Fin dx) /\ dx <= d + w) /\
  table_le (distancias st) (distancias st').
Proof.
  intros HI Hwalk Ha. revert st HI.
  induction items as [|it items IH]; intros st HI Hsub; simpl.
  - intros [= <-]. split; [done|]. split; [|apply table_le_refl].
    intros x w Hin. inversion Hin.
  - destruct (relax d u st it) as [st1| |] eqn:Hr; try discriminate.
    intros Hfor.
    destruct (relax_winv _ _ _ _ _ _ _ HI Hwalk Ha (Hsub _ ltac:(left)) Hr)
      as (HI1 & (dx & Hx & Hdx) & Hle1).
    destruct (IH st1 HI1 (fun it' H => Hsub it' ltac:(by right)) Hfor)
      as (HI' & Hrel & Hle').
    split; [done|]. split; [|by eapply table_le_trans].
    intros x w Hin. apply elem_of_cons in Hin as [<-|Hin]; [|eauto].
    simpl in *. destruct (Hle' _ _ Hx) as (dx' & Hx' & ?).
    exists dx'. split; [done|lia].
Qed.

Lemma body_winv st x rest st' :
  winv g s None st -> fila_prioridade st = x :: rest ->
  body g st x rest = Returns st' -> winv g s None st'.
Proof.
  intros HI Hf. destruct x as [d u]. unfold body.
  destruct (w_fila _ _ _ _ HI d u) as (du & Hu & Hle).
  { rewrite Hf. left. }
  rewrite Hu.
  assert (HI1 : forall cur,
    (du = d -> cur = Some (d, u)) ->
    winv g s cur {| distancias := distancias st; caminhos := caminhos st;
                    fila_prioridade := rest |}).
  { intros cur Hcur. destruct HI as [H1 H2 H3 H4]. split; simpl; try done.
    - intros d' v Hin. apply H3. rewrite Hf. by right.
    - intros v dv Hv. destruct (H4 _ _ Hv) as [Hin|[Hr|Hc]]; [|auto|done].
      rewrite Hf in Hin. apply elem_of_cons in Hin as [[= -> ->]|Hin]; [|auto].
      right. right. apply Hcur. rewrite Hu in Hv. by injection Hv. }
  destruct (dist_gtb (Fin d) (Fin du)) eqn:Hgt.
  - intros [= <-]. apply HI1. simpl in Hgt. lia.
  - assert (du = d) as -> by (simpl in Hgt; lia).
    destruct (dict_get g u) as [a|] eqn:Ha; [|discriminate].
    intros Hfor. destruct (w_walk _ _ _ _ HI _ _ Hu) as [lu Hwalk].
    destruct (for_items_winv d u lu a a _ st' (HI1 (Some (d, u)) ltac:(done))
                Hwalk Ha ltac:(done) Hfor) as (HI' & Hrel & _).
    destruct HI' as [H1 H2 H3 H4]. split; try done.
    intros v dv Hv. destruct (H4 _ _ Hv) as [Hin|[Hr|Hc]]; [auto|auto|].
    injection Hc as -> ->. right. left.
    intros x w (a' & Ha' & Hin). rewrite Ha in Ha'. injection Ha' as <-.
    eauto.
Qed.

Lemma loop_winv fuel st D P :
  winv g s None st -> loop fuel g st = Returns (D, P) ->
  winv g s None {| distancias := D; caminhos := P; fila_prioridade := [] |}.
Proof.
  revert st. induction fuel as [|fuel IH]; intros st HI; simpl.
  - destruct st as [D0 P0 [|x rest]]; simpl; [|discriminate].
    by intros [= <- <-].
  - destruct st as [D0 P0 [|x rest]]; simpl; [by intros [= <- <-]|].
    destruct (body _ _ _ _) as [st'| |] eqn:Hb; try discriminate.
    apply IH. by eapply body_winv.
Qed.

Lemma solve_winv D P :
  solve_returns g s (D, P) ->
  winv g s None {| distancias := D; caminhos := P; fila_prioridade := [] |}.
Proof.
  intros [fuel Hrun]. eapply loop_winv; [apply init_winv|exact Hrun].
Qed.

(** Once the queue is empty, distances grow along paths by no more than the
    weights. *)
Lemma final_lower_from D P a da y l c :
  winv g s None {| distancias := D; caminhos := P; fila_prioridade := [] |} ->
  D !! a = Some (Fin da) -> walk g a y l c ->
  exists dy, D !! y = Some (Fin dy) /\ dy <= da + c.
Proof.
  intros HI Ha. induction 1 as [|u x w l d _ (du & Hu & Hle) He].
  - exists da. split; [done|lia].
  - destruct (w_open _ _ _ _ HI _ _ Hu) as [Hin|[Hr|Hc]];
      [inversion Hin| |discriminate].
    destruct (Hr _ _ He) as (dx & Hx & ?). exists dx. split; [done|lia].
Qed.

End AnyWeights.

(** X5.  Whatever the sign of the integer weights, a distance table that
    the call returns is right: at every key it holds the least weight of a
    path from the source, or infinity when there is no path. *)
Theorem returned_distances_any_weights (g : graph) (s : vertex) D P :
  solve_returns g s (D, P) ->
  forall v, v ∈ dict_keys g ->
    exists delta, D !! v = Some delta /\ least_weight g s v delta.
Proof.
  intros Hret v Hv. pose proof (solve_winv g s D P Hret) as HI.
  destruct (w_src _ _ _ _ HI) as (d0 & Hs & Hd0). simpl in Hs.
  destruct (solve_keys g s D P v Hret) as [HD _].
  destruct (proj2 HD Hv) as [delta Hd]. exists delta. split; [done|].
  destruct delta as [d|]; simpl.
  - split; [by apply (w_walk _ _ _ _ HI v d)|].
    intros l d' Hw.
    destruct (final_lower_from g s D P s d0 v l d' HI Hs Hw) as (dv & H & ?).
    rewrite Hd in H. injection H as <-. lia.
  - intros l d' Hw.
    destruct (final_lower_from g s D P s d0 v l d' HI Hs Hw) as (dv & H & ?).
    rewrite Hd in H. discriminate.
Qed.

Lemma returned_distances_any_weights_witness :
  exists delta,
    fst (returned (dijkstra 100 grafo_negativo "A")) !! "C" = Some delta /\
    least_weight grafo_negativo "A" "C" delta.
Proof.
  refine (returned_distances_any_weights grafo_negativo "A" _
            (snd (returned (dijkstra 100 grafo_negativo "A"))) _ "C" _).
  - exists 100%nat. vm_compute. reflexivity.
  - compute_done.
Defined.

(** X6.  At integer weights, when a cycle of negative total weight can be
    reached from the source, the call never returns, however many
    iterations it is given. *)
Theorem negative_cycle_never_returns (g : graph) (s v : vertex) l d l' c :
  walk g s v l d -> walk g v v l' c -> c < 0 ->
  forall fuel T, dijkstra fuel g s <> Returns T.
Proof.
  intros Hw Hc Hneg fuel [D P] Hrun.
  assert (Hret : solve_returns g s (D, P)) by (by exists fuel).
  pose proof (solve_winv g s D P Hret) as HI.
  destruct (w_src _ _ _ _ HI) as (d0 & Hs & Hd0). simpl in Hs.
  destruct (final_lower_from g s D P s d0 v l d HI Hs Hw) as (dv & Hv & _).
  destruct (final_lower_from g s D P v dv v l' c HI Hv Hc) as (dv' & Hv' & ?).
  rewrite Hv in Hv'. injection Hv' as <-. lia.
Qed.

Lemma negative_cycle_never_returns_witness :
  dijkstra 1000 grafo_ciclo "A" <> Returns (∅, ∅).
Proof.
  refine (negative_cycle_never_returns grafo_ciclo "A" "A" ["A"] 0
            (["A"] ++ ["A"]) (0 + -1) _ _ _ 1000%nat (∅, ∅)).
  - constructor.
  - econstructor; [constructor|]. exists [("A", -1)]. split; [reflexivity|left].
  - lia.
Defined.

(** At float weights a negative cycle does not keep the loop going for
    ever: on a loop of weight [-1e308] the distance of ["A"] goes from 0 to
    [-1e308], then to [-inf], where the test of line 36 fails, and the
    call returns at the third iteration. *)
Lemma negative_cycle_returns_at_float_weights :
  dijkstra_float 2 grafo_ciclo_float "A" = OutOfFuel /\
  exists D P,
    dijkstra_float 3 grafo_ciclo_float "A" = Returns (D, P) /\
    D !! "A" = Some neg_infinity /\ P !! "A" = Some ["A"; "A"; "A"].
Proof.
  split; [vm_compute; reflexivity|].
  eexists _, _. split; [vm_compute; reflexivity|].
  split; vm_compute; reflexivity.
Qed.

(** ** The drawing *)

Lemma elem_of_G_arestas (g : graph) u x w :
  (u, x, w) ∈ G_arestas g <-> exists a, (u, a) ∈ g /\ (x, w) ∈ a.
Proof.
  unfold G_arestas. rewrite list_elem_of_In, in_flat_map. split.
  - intros ([u' a] & Hin & Hx). apply in_map_iff in Hx as ([x' w'] & [= -> -> ->] & Hx).
    exists a. by rewrite !list_elem_of_In.
  - intros (a & Hin & Hx). exists (u, a). rewrite <- list_elem_of_In.
    split; [done|]. apply in_map_iff. exists (x, w).
    by rewrite <- list_elem_of_In.
Qed.

Lemma edge_G_arestas g u x w : edge g u x w -> (u, x, w) ∈ G_arestas g.
Proof.
  intros (a & Ha & Hin). apply elem_of_G_arestas. exists a.
  split; [by apply dict_get_elem|done].
Qed.

Lemma elem_of_G_nos (g : graph) v :
  v ∈ G_nos g <-> exists u x w, (u, x, w) ∈ G_arestas g /\ (v = u \/ v = x).
Proof.
  unfold G_nos. rewrite list_elem_of_In, in_flat_map. split.
  - intros ([[u x] w] & Hin & Hv). exists u, x, w.
    rewrite list_elem_of_In. split; [done|].
    destruct Hv as [<-|[<-|[]]]; auto.
  - intros (u & x & w & Hin & Hv). exists (u, x, w).
    rewrite <- list_elem_of_In. split; [done|].
    destruct Hv as [->| ->]; simpl; auto.
Qed.

Lemma arestas_caminho_cons a b r :
  arestas_caminho (a :: b :: r) = (a, b) :: arestas_caminho (b :: r).
Proof. unfold arestas_caminho. simpl. by rewrite Nat.sub_0_r. Qed.

Lemma arestas_caminho_chain g l a b :
  chain g l -> (a, b) ∈ arestas_caminho l -> exists w, edge g a b w.
Proof.
  induction l as [|x l IH]; [by intros _ H; inversion H|].
  destruct l as [|y r]; [by intros _ H; inversion H|].
  rewrite arestas_caminho_cons. intros [He Hc]%chain_cons.
  intros [[= -> ->]|Hin]%elem_of_cons; [done|by apply IH].
Qed.

(** X7.  For a graph with non-negative weights, every edge that
    [visualizar_grafo] draws in red for paths returned by [dijkstra] is
    one of the edges it put in [G], and both its ends are nodes of [G]: the
    red drawing calls never name an edge or a node the layout does not
    have. *)
Theorem red_edges_in_G (g : graph) (s : vertex) D P :
  nonneg g -> solve_returns g s (D, P) ->
  forall (cs : dict (list vertex)) (inicio : option vertex),
    (forall k l, (k, l) ∈ cs -> P !! k = Some l) ->
    forall es a b, es ∈ destaques (Some cs) inicio -> (a, b) ∈ es ->
      (exists w, (a, b, w) ∈ G_arestas g) /\ a ∈ G_nos g /\ b ∈ G_nos g.
Proof.
  intros Hnn%nonneg_nonneg_edges Hret cs inicio Hcs es a b Hes Hab.
  pose proof (solve_final _ _ _ _ Hnn Hret) as HI.
  assert (Hedge : exists w, edge g a b w).
  { unfold destaques in Hes. destruct inicio as [i|]; [|inversion Hes].
    destruct (_ || _); [inversion Hes|].
    apply list_elem_of_omap in Hes as ([k l] & Hkl & Hf).
    destruct (_ && _); [|done]. injection Hf as <-.
    apply Hcs in Hkl.
    destruct (solve_keys g s D P k Hret) as [HD HP].
    assert (is_Some (D !! k)) as [[d|] Hd] by (apply HD, HP; eauto).
    - destruct (inv_path _ _ _ _ HI k d Hd) as (l' & Hl' & Hw). simpl in Hl'.
      rewrite Hkl in Hl'. injection Hl' as <-.
      eapply arestas_caminho_chain; [by eapply walk_chain|done].
    - apply (inv_inf _ _ _ _ HI) in Hd. simpl in Hd.
      rewrite Hkl in Hd. injection Hd as ->. inversion Hab. }
  destruct Hedge as [w He%edge_G_arestas].
  split; [eauto|]. split; apply elem_of_G_nos; exists a, b, w; eauto.
Qed.

Lemma red_edges_in_G_witness :
  (exists w, ("D", "F", w) ∈ G_arestas grafo_exemplo) /\
  "D" ∈ G_nos grafo_exemplo /\ "F" ∈ G_nos grafo_exemplo.
Proof.
  refine (red_edges_in_G grafo_exemplo "A" distancias_exemplo caminhos_exemplo
            _ _ [("A", ["A"]); ("E", ["A"; "D"; "F"; "E"])] (Some "A") _
            [("A", "D"); ("D", "F"); ("F", "E")] "D" "F" _ _).
  - unfold nonneg. compute_done.
  - exists 100%nat. vm_compute. reflexivity.
  - intros k l Hin. apply elem_of_cons in Hin as [[= -> ->]|Hin];
      [vm_compute; reflexivity|].
    apply list_elem_of_singleton in Hin as [= -> ->]. vm_compute. reflexivity.
  - vm_compute. left.
  - compute_done.
Defined.

(** X8.  The edge list of line 76 loses nothing of a path: a path of [n]
    vertices, [n] at least 1, gives [n - 1] edges, whose sources are the
    path without its last vertex and whose targets are the path without its
    first. *)
Theorem arestas_caminho_path (x : vertex) (r : list vertex) :
  length (arestas_caminho (x :: r)) = length r /\
  map fst (arestas_caminho (x :: r)) = removelast (x :: r) /\
  x :: map snd (arestas_caminho (x :: r)) = x :: r.
Proof.
  revert x. induction r as [|y r IH]; intros x; [done|].
  rewrite arestas_caminho_cons. destruct (IH y) as (Hlen & Hfst & Hsnd).
  split; [simpl; by rewrite Hlen|]. split.
  - cbn [map fst]. rewrite Hfst. done.
  - cbn [map snd]. by rewrite Hsnd.
Qed.

(** X9.  A key of the graph that has no neighbour and is the neighbour of
    no key is not a node of [G]: [visualizar_grafo] builds [G] from the
    edges alone, so it does not draw an isolated vertex. *)
Theorem isolated_vertex_not_in_G (g : graph) (v : vertex) :
  NoDup (dict_keys g) -> dict_get g v = Some [] ->
  Forall (fun ua => Forall (fun xw => fst xw <> v) (snd ua)) g ->
  ~ v ∈ G_nos g.
Proof.
  intros Hnd Hv Hin
    (u & x & w & (a & Hua & Hxw)%elem_of_G_arestas & Hvux)%elem_of_G_nos.
  destruct Hvux as [->| ->].
  - pose proof (dict_get_nodup g u a Hnd Hua) as Hu.
    rewrite Hv in Hu. injection Hu as <-. inversion Hxw.
  - rewrite Forall_forall in Hin. specialize (Hin _ Hua). simpl in Hin.
    rewrite Forall_forall in Hin. by apply (Hin _ Hxw).
Qed.

Lemma isolated_vertex_not_in_G_witness : ~ "Z" ∈ G_nos grafo_isolado.
Proof.
  refine (isolated_vertex_not_in_G grafo_isolado "Z" _ _ _).
  - compute_done.
  - reflexivity.
  - compute_done.
Defined.

(** ** The number of iterations *)

Lemma entry_leb_fst a b : entry_leb a b = true -> fst a <= fst b.
Proof.
  unfold entry_leb. destruct (Z.ltb_spec (fst a) (fst b)); [lia|].
  destruct (Z.eqb_spec (fst a) (fst b)); [lia|done].
Qed.

Lemma relax_not_out_of_fuel d u st it : relax d u st it <> OutOfFuel.
Proof.
  destruct it as [x w]. unfold relax.
  destruct (distancias st !! x); [|done].
  destruct (dist_ltb _ _); [|done]. by destruct (caminhos st !! u).
Qed.

Lemma for_items_not_out_of_fuel d u st items :
  for_items d u st items <> OutOfFuel.
Proof.
  revert st. induction items as [|it items IH]; intros st; simpl; [done|].
  destruct (relax d u st it) eqn:Hr; [apply IH|done|].
  by apply relax_not_out_of_fuel in Hr.
Qed.

Lemma body_not_out_of_fuel g st x rest : body g st x rest <> OutOfFuel.
Proof.
  destruct x as [d u]. unfold body.
  destruct (distancias st !! u); [|done].
  destruct (dist_gtb _ _); [done|].
  destruct (dict_get g u); [|done]. apply for_items_not_out_of_fuel.
Qed.

Lemma pending_empty g : pending g ∅ = edge_count g.
Proof.
  unfold pending, edge_count. apply sum_list_with_ext. intros ua _.
  destruct (decide _) as [H|]; [|done]. by apply not_elem_of_empty in H.
Qed.

Lemma pending_expand (g : graph) (X : gset string) u a :
  (u, a) ∈ g -> ~ u ∈ X ->
  (pending g ({[u]} ∪ X) + length a <= pending g X)%nat.
Proof.
  unfold pending. induction g as [|[k b] g IH]; intros Hin Hu.
  - inversion Hin.
  - cbn [sum_list_with fst snd].
    assert (Hrest :
      (sum_list_with
         (fun ua => if decide (fst ua ∈ {[u]} ∪ X) then 0%nat
                    else length (snd ua)) g
       <= sum_list_with
            (fun ua => if decide (fst ua ∈ X) then 0%nat
                       else length (snd ua)) g)%nat).
    { apply sum_list_with_le. intros ua _.
      destruct (decide (fst ua ∈ {[u]} ∪ X)) as [|Hn], (decide (fst ua ∈ X));
        try lia. exfalso. apply Hn, elem_of_union. by right. }
    apply elem_of_cons in Hin as [[= <- <-]|Hin].
    + destruct (decide (u ∈ {[u]} ∪ X)) as [|Hn].
      * destruct (decide (u ∈ X)); [done|]. lia.
      * exfalso. apply Hn, elem_of_union. left. by apply elem_of_singleton.
    + specialize (IH Hin Hu).
      destruct (decide (k ∈ {[u]} ∪ X)) as [|Hn], (decide (k ∈ X)); try lia.
      exfalso. apply Hn, elem_of_union. by right.
Qed.

Section Bound.
Variable g : graph.
Variable s : vertex.
Hypothesis Hnn : nonneg_edges g.

Lemma init_dinv : dinv 0 ∅ (init g s).
Proof.
  split; simpl.
  - intros d v Hin. apply list_elem_of_singleton in Hin as [= -> ->]. lia.
  - apply NoDup_singleton.
  - intros u Hu. by apply not_elem_of_empty in Hu.
Qed.

Lemma relax_dinv L X d u st it st' :
  (forall d' v, (d', v) ∈ fila_prioridade st ->
     exists dv, distancias st !! v = Some (Fin dv) /\ dv <= d') ->
  dinv L X st -> L <= d + snd it ->
  relax d u st it = Returns st' ->
  dinv L X st' /\
  (length (fila_prioridade st') <= S (length (fila_prioridade st)))%nat.
Proof.
  intros Hfila [H1 H2 H3] HL. destruct it as [x w]. simpl in HL. unfold relax.
  destruct (distancias st !! x) as [dx|] eqn:Hx; [|done].
  destruct (dist_ltb (Fin (d + w)) dx) eqn:Hlt;
    [|intros [= <-]; split; [done|lia]].
  destruct (caminhos st !! u) as [p|]; [|done]. intros [= <-]. simpl.
  split; [|rewrite length_heappush; lia].
  assert (HxX : x ∉ X).
  { intros (du & Hdu & Hle & _)%H3. rewrite Hx in Hdu. injection Hdu as ->.
    simpl in Hlt. lia. }
  split; simpl.
  - intros d' v [[= -> ->]|Hin]%elem_of_heappush; [lia|eauto].
  - rewrite heappush_perm. apply NoDup_cons. split; [|done].
    intros (dv & Hdv & Hle)%Hfila. rewrite Hx in Hdv. injection Hdv as ->.
    simpl in Hlt. lia.
  - intros u' Hu'. destruct (H3 u' Hu') as (du & Hdu & Hle & Hgt).
    assert (x <> u') by (by intros ->).
    exists du. rewrite lookup_insert_ne by done. split; [done|]. split; [done|].
    intros d' [[= -> ->]|Hin]%elem_of_heappush; [done|eauto].
Qed.

Lemma for_items_dinv L X d u a items st st' :
  inv g s (Some (d, u)) st ->
  distancias st !! u = Some (Fin d) ->
  dict_get g u = Some a -> (forall it, it ∈ items -> it ∈ a) ->
  dinv L X st -> L <= d ->
  for_items d u st items = Returns st' ->
  dinv L X st' /\
  (length (fila_prioridade st')
   <= length (fila_prioridade st) + length items)%nat.
Proof.
  intros HI Hu Ha. revert st HI Hu.
  induction items as [|it items IH]; intros st HI Hu Hsub HD HL; simpl.
  - intros [= <-]. split; [done|lia].
  - destruct (relax d u st it) as [st1| |] eqn:Hr; try discriminate.
    intros Hfor.
    assert (Hit : it ∈ a) by (apply Hsub; left).
    destruct (relax_inv g s Hnn _ _ _ _ _ _ HI Hu Ha Hit Hr)
      as (HI1 & Hu1 & _ & _).
    assert (Hw : 0 <= snd it).
    { apply (Hnn u (fst it)). exists a. by destruct it. }
    destruct (relax_dinv L X d u st it st1 (inv_fila _ _ _ _ HI) HD
                ltac:(lia) Hr) as [HD1 Hlen1].
    destruct (IH st1 HI1 Hu1 (fun it' H => Hsub it' ltac:(by right)) HD1 HL Hfor)
      as [HD' Hlen']. split; [done|lia].
Qed.

Lemma body_dinv L X st x rest st' :
  inv g s None st -> queue_sorted (fila_prioridade st) -> dinv L X st ->
  fila_prioridade st = x :: rest ->
  body g st x rest = Returns st' ->
  exists L' X', dinv L' X' st' /\
    (length (fila_prioridade st') + pending g X'
     < length (fila_prioridade st) + pending g X)%nat.
Proof.
  intros HI Hsorted HD Hf Hb. destruct x as [d u].
  pose proof HD as [H1 H2 H3].
  assert (HL : L <= d) by (apply (H1 d u); rewrite Hf; left).
  assert (Hrest_low : forall d' v, (d', v) ∈ rest -> d <= d').
  { intros d' v Hin.
    destruct (heappop_least _ (d, u) rest Hsorted) as [_ Hleast].
    { by rewrite Hf. }
    by apply Hleast, entry_leb_fst in Hin. }
  assert (Hnd : ~ (d, u) ∈ rest /\ NoDup rest).
  { rewrite Hf in H2. by apply NoDup_cons in H2. }
  destruct Hnd as [Hnotin Hnd].
  unfold body in Hb.
  destruct (distancias st !! u) as [dv|] eqn:Hu; [|done].
  destruct (dist_gtb (Fin d) dv) eqn:Hgt.
  - injection Hb as <-. exists L, X. simpl. rewrite Hf. simpl.
    split; [|lia]. split; simpl; [| done |].
    + intros d' v Hin. apply (H1 d' v). rewrite Hf. by right.
    + intros u' Hu'. destruct (H3 u' Hu') as (du & Hdu & Hle & Hgt').
      exists du. split; [done|]. split; [done|].
      intros d' Hin. apply Hgt'. rewrite Hf. by right.
  - pose proof (pop_fresh g s _ _ _ _ _ HI Hf Hu Hgt) as ->.
    destruct (dict_get g u) as [a|] eqn:Ha; [|discriminate].
    assert (HuX : u ∉ X).
    { intros (du & Hdu & _ & Hgt')%H3. rewrite Hu in Hdu. injection Hdu as <-.
      specialize (Hgt' d). rewrite Hf in Hgt'. specialize (Hgt' ltac:(left)).
      lia. }
    assert (HD1 : dinv d ({[u]} ∪ X)
                    {| distancias := distancias st; caminhos := caminhos st;
                       fila_prioridade := rest |}).
    { split; simpl; [done|done|].
      intros u' [->%elem_of_singleton|Hu']%elem_of_union.
      - exists d. split; [done|]. split; [lia|].
        intros d' Hin.
        destruct (inv_fila _ _ _ _ HI d' u) as (du & Hdu & Hle).
        { rewrite Hf. by right. }
        rewrite Hu in Hdu. injection Hdu as <-.
        assert (d' <> d) by (by intros ->). lia.
      - destruct (H3 u' Hu') as (du & Hdu & Hle & Hgt').
        exists du. split; [done|]. split; [lia|].
        intros d' Hin. apply Hgt'. rewrite Hf. by right. }
    destruct (for_items_dinv d ({[u]} ∪ X) d u a a _ st'
                (pop_inv g s st d u rest (Some (d, u)) HI Hf ltac:(done))
                Hu Ha ltac:(done) HD1 ltac:(lia) Hb) as [HD' Hlen].
    exists d, ({[u]} ∪ X). split; [done|]. simpl in Hlen.
    pose proof (pending_expand g X u a (dict_get_elem _ _ _ Ha) HuX).
    rewrite Hf. simpl. lia.
Qed.

Lemma loop_within fuel st L X :
  inv g s None st -> queue_sorted (fila_prioridade st) -> dinv L X st ->
  (length (fila_prioridade st) + pending g X <= fuel)%nat ->
  loop fuel g st <> OutOfFuel.
Proof.
  revert st L X. induction fuel as [|fuel IH]; intros st L X HI Hs HD Hfuel.
  - destruct (fila_prioridade st) as [|x rest] eqn:Hf; simpl in *.
    + by rewrite Hf.
    + lia.
  - assert (Hcase : fila_prioridade st = [] \/
                    exists x rest, fila_prioridade st = x :: rest).
    { destruct (fila_prioridade st) as [|x rest]; eauto. }
    destruct Hcase as [Hf|(x & rest & Hf)].
    + simpl. by rewrite Hf.
    + rewrite (loop_step fuel g st x rest Hf).
      destruct (body g st x rest) as [st'| |] eqn:Hb; [|done|].
      * destruct (body_dinv L X st x rest st' HI Hs HD Hf Hb)
          as (L' & X' & HD' & Hlt).
        apply (IH st' L' X'); [by eapply body_inv|by eapply body_sorted|done|].
        rewrite Hf in Hlt, Hfuel. simpl in *. lia.
      * by apply body_not_out_of_fuel in Hb.
Qed.

End Bound.

(** X10.  For non-negative weights the [while] loop makes at most one
    iteration more than the graph has edges: given that many, the call has
    returned or raised. *)
Theorem dijkstra_iterations_bound (g : graph) (s : vertex) (fuel : nat) :
  nonneg g -> (S (edge_count g) <= fuel)%nat ->
  dijkstra fuel g s <> OutOfFuel.
Proof.
  intros Hnn%nonneg_nonneg_edges Hfuel. unfold dijkstra.
  apply (loop_within g s Hnn fuel (init g s) 0 ∅).
  - by apply init_inv.
  - apply init_sorted.
  - apply init_dinv.
  - rewrite pending_empty. simpl. lia.
Qed.

Lemma dijkstra_iterations_bound_witness :
  dijkstra 33 grafo_exemplo "A" <> OutOfFuel.
Proof.
  refine (dijkstra_iterations_bound grafo_exemplo "A" 33 _ _).
  - unfold nonneg. compute_done.
  - vm_compute. lia.
Defined.

(** ** The edges of the returned paths *)

Lemma arestas_caminho_split l a b :
  (a, b) ∈ arestas_caminho l -> exists l1 l2, l = l1 ++ a :: b :: l2.
Proof.
  induction l as [|x l IH]; [by intros H; inversion H|].
  destruct l as [|y r]; [by intros H; inversion H|].
  rewrite arestas_caminho_cons.
  intros [[= -> ->]|Hin]%elem_of_cons.
  - by exists [], r.
  - destruct (IH Hin) as (l1 & l2 & ->). by exists (x :: l1), l2.
Qed.

Lemma walk_snoc_inv g s x l y d :
  walk g s x (l ++ [y]) d -> l <> [] ->
  exists u d0 w, walk g s u l d0 /\ edge g u x w /\ d = d0 + w /\ y = x.
Proof.
  remember (l ++ [y]) as L eqn:HL. intros Hw Hne.
  destruct Hw as [|u x w l0 d0 Hw0 He].
  - destruct l as [|? [|? ?]]; simplify_eq.
  - apply app_inj_tail in HL as [-> ->]. by exists u, d0, w.
Qed.

(** X11.  For non-negative weights, every edge of a returned path is
    tight: for consecutive vertices [a], [b] of the path, the returned
    distance of [b] is the returned distance of [a] plus the weight of an
    edge from [a] to [b].  These are the edges drawn in red. *)
Theorem returned_paths_tight (g : graph) (s : vertex) D P :
  nonneg g -> solve_returns g s (D, P) ->
  forall v l a b, P !! v = Some l -> (a, b) ∈ arestas_caminho l ->
    exists da w, D !! a = Some (Fin da) /\ edge g a b w /\
                 D !! b = Some (Fin (da + w)).
Proof.
  intros Hnn%nonneg_nonneg_edges Hret v l a b Hl
    (l1 & l2 & ->)%arestas_caminho_split.
  pose proof (solve_final _ _ _ _ Hnn Hret) as HI.
  assert (Hl' : P !! v = Some ((l1 ++ [a]) ++ b :: l2)).
  { by rewrite <- app_assoc. }
  destruct (solve_prefix g s D P v _ b l2 Hnn Hret Hl') as (db & Hb & Hwb).
  apply walk_snoc_inv in Hwb as (u & d0 & w & Hwa & He & -> & _);
    [|by destruct l1].
  assert (u = a) as ->.
  { apply walk_ends in Hwa as [_ Hlast]. rewrite last_snoc in Hlast.
    by injection Hlast. }
  destruct (final_lower g s D P a _ _ HI Hwa) as (da & Ha & Hle).
  destruct (inv_path _ _ _ _ HI a da Ha) as (la & _ & Hwa').
  pose proof (walk_step g s a b w la da Hwa' He) as Hwb'.
  destruct (final_lower g s D P b _ _ HI Hwb') as (db & Hb' & Hle').
  rewrite Hb in Hb'. injection Hb' as <-.
  exists da, w. split; [done|]. split; [done|].
  rewrite Hb. do 2 f_equal. lia.
Qed.

Lemma returned_paths_tight_witness :
  exists da w, distancias_exemplo !! "F" = Some (Fin da) /\
               edge grafo_exemplo "F" "E" w /\
               distancias_exemplo !! "E" = Some (Fin (da + w)).
Proof.
  refine (returned_paths_tight grafo_exemplo "A"
            distancias_exemplo caminhos_exemplo _ _
            "E" ["A"; "D"; "F"; "E"] "F" "E" _ _).
  - unfold nonneg. compute_done.
  - exists 100%nat. vm_compute. reflexivity.
  - vm_compute. reflexivity.
  - compute_done.
Defined.

(** X12.  For non-negative weights, the returned path of a key is empty
    exactly when its returned distance is infinite: the test [and caminho]
    of line 74 tells the keys that cannot be reached from the others. *)
Theorem empty_path_iff_infinite (g : graph) (s : vertex) D P :
  nonneg g -> solve_returns g s (D, P) ->
  forall v, v ∈ dict_keys g -> (P !! v = Some [] <-> D !! v = Some Inf).
Proof.
  intros Hnn%nonneg_nonneg_edges Hret v Hv.
  pose proof (solve_final _ _ _ _ Hnn Hret) as HI.
  split; [|apply (inv_inf _ _ _ _ HI)].
  intros Hl. destruct (inv_keys _ _ _ _ HI v Hv) as [[d|] Hd]; [|done].
  destruct (inv_path _ _ _ _ HI v d Hd) as (l & Hl' & Hw). simpl in *.
  rewrite Hl in Hl'. injection Hl' as <-.
  by apply walk_nonempty in Hw.
Qed.

Lemma empty_path_iff_infinite_witness :
  caminhos_isolado !! "Z" = Some [] <-> distancias_isolado !! "Z" = Some Inf.
Proof.
  refine (empty_path_iff_infinite grafo_isolado "A"
            distancias_isolado caminhos_isolado _ _ "Z" _).
  - unfold nonneg. compute_done.
  - exists 10%nat. vm_compute. reflexivity.
  - compute_done.
Defined.
